(** * ts_love_csc: the authorization model of the LOVE CSC

    A shallow embedding of [utils.parse_auth_request] and of the class
    [AuthorizationModel] (authorization_model.py), and the properties of
    the authorization store established on it.

    Python values are modelled as follows.
    - [str] is [string]; the three string operations the code uses
      ([split], [startswith], the slice [item[1:]]) and [join] are
      defined in [Module str].
    - [set] of [str] is [gset string]; [len] is [size].
    - The outer dictionary [self.authorization] maps a component name to a
      *reference* to an inner dictionary; the inner dictionaries live in a
      heap of objects.  References matter: [dict.get] hands out the stored
      inner dictionary itself, not a copy of it.
    - Exceptions are values of [exn]; methods run in a state-and-exception
      monad over the model.

    The second part of the file covers the rest of utils.py
    ([get_available_components]) and the parts of csc.py that work on the
    model or on plain data: the event handler
    [_handle_auth_list_for_component] and the creation of the remotes. *)

From Stdlib Require Import Ascii String.
From stdpp Require Import base strings gmap sets list fin_sets.
From stdpp Require Import pretty.

#[local] Set Warnings "-clear-no-such-hyp".

(** ** Python strings *)

Module str.

(** [s.split(sep)] for a one-character separator: the empty string splits
    into the single empty token, and [n] separators give [n + 1] tokens. *)
Fixpoint split (sep : ascii) (s : string) : list string :=
  match s with
  | EmptyString => [EmptyString]
  | String ch rest =>
      if decide (ch = sep) then EmptyString :: split sep rest
      else match split sep rest with
           | [] => [String ch EmptyString]
           | tok :: toks => String ch tok :: toks
           end
  end.

(** [item.startswith(prefix)] for a one-character prefix. *)
Definition startswith (prefix : ascii) (item : string) : bool :=
  match item with
  | String ch _ => bool_decide (ch = prefix)
  | EmptyString => false
  end.

(** The slice [item[1:]]. *)
Definition drop_first (item : string) : string :=
  match item with
  | String _ rest => rest
  | EmptyString => EmptyString
  end.

(** [sep.join(items)]. *)
Fixpoint join (sep : string) (items : list string) : string :=
  match items with
  | [] => EmptyString
  | [item] => item
  | item :: more => item +:+ sep +:+ join sep more
  end.

End str.

(** ** Exceptions and results *)

(** The exceptions of the code.  The message of the [RuntimeError] of
    [parse_auth_request] is a fixed text into which the request and the set
    [bad_entries] are interpolated; the exception carries these two values.
    [NotImplementedError] carries its message.  [KeyError] is what the
    subscript [self.authorization[component]] raises on a missing key. *)
Inductive exn : Type :=
  | RuntimeError (request : string) (bad_entries : gset string)
  | NotImplementedError (message : string)
  | KeyError (key : string).

Inductive result (A : Type) : Type :=
  | Ok (value : A)
  | Raise (e : exn).
Arguments Ok {A} value.
Arguments Raise {A} e.

(** The entries that the message of an exception lists as invalid. *)
Definition listed_entries (e : exn) : gset string :=
  match e with
  | RuntimeError _ bad_entries => bad_entries
  | NotImplementedError _ | KeyError _ => ∅
  end.

Definition is_raise {A : Type} (r : result A) : Prop :=
  match r with
  | Raise _ => True
  | Ok _ => False
  end.

(** ** utils.py *)

Module utils.

Definition plus_sign : ascii := "+"%char.
Definition minus_sign : ascii := "-"%char.
Definition comma : ascii := ","%char.

(** The condition of the comprehension that builds [bad_entries]. *)
Definition lacks_sign (item : string) : bool :=
  negb (str.startswith plus_sign item) && negb (str.startswith minus_sign item).

Definition parse_auth_request (request : string)
  : result (gset string * gset string) :=
  if decide (String.length request = 0) then Ok (∅, ∅)
  else
    let request_as_set : gset string :=
      list_to_set (str.split comma request) in
    let to_add : gset string :=
      set_map str.drop_first
        (filter (λ item, str.startswith plus_sign item = true) request_as_set) in
    let to_remove : gset string :=
      set_map str.drop_first
        (filter (λ item, str.startswith minus_sign item = true) request_as_set) in
    let union := to_add ∪ to_remove in
    if decide (size union ≠ size request_as_set) then
      let bad_entries : gset string :=
        filter (λ item, lacks_sign item = true) request_as_set in
      Raise (RuntimeError request bad_entries)
    else Ok (to_add, to_remove).

(** *** Vocabulary for the properties of the parser *)

(** The tokens of a request, as a set. *)
Definition tokens (request : string) : gset string :=
  list_to_set (str.split comma request).

Definition signed (item : string) : Prop :=
  str.startswith plus_sign item = true ∨ str.startswith minus_sign item = true.

(** Some token of the request lacks its sign. *)
Definition has_unsigned (request : string) : Prop :=
  ∃ tok, tok ∈ tokens request ∧ lacks_sign tok = true.

(** Some item is both added and removed by the request. *)
Definition has_conflict (request : string) : Prop :=
  ∃ item, String plus_sign item ∈ tokens request
          ∧ String minus_sign item ∈ tokens request.

(** What the specification calls an offending token of a request: one that
    lacks its sign, or one that adds or removes an item which the request
    both adds and removes. *)
Definition spec_offending (request tok : string) : Prop :=
  tok ∈ tokens request ∧
  (lacks_sign tok = true ∨
   ∃ item, (tok = String plus_sign item ∨ tok = String minus_sign item) ∧
           String plus_sign item ∈ tokens request ∧
           String minus_sign item ∈ tokens request).

End utils.


(** ** authorization_model.py *)

Module data.

(** The request handed to [process_request]: the fields of the command
    payload that the method reads. *)
Record t : Type := {
  cscsToChange : string;
  authorizedUsers : string;
  nonAuthorizedCSCs : string
}.

End data.

Module authorization_model.

(** An inner dictionary, with its two keys. *)
Record ComponentAuthorization : Type := {
  authorized_users : gset string;
  non_authorized_cscs : gset string
}.

(** [dict(authorized_users=set(), non_authorized_cscs=set())]. *)
Definition empty_component_authorization : ComponentAuthorization :=
  {| authorized_users := ∅; non_authorized_cscs := ∅ |}.

(** The object: [heap] holds the inner dictionaries created so far, by
    reference (a [positive]); [authorization] and [_auto_accept_request] are
    the attributes of the class.  The logger has no effect on the model and
    is left out.  The sets stored in an inner dictionary are values here:
    the code never shares one set between two dictionaries ([union] and
    [set(...)] build new sets), so a set is reached only through the
    dictionary that holds it. *)
Record AuthorizationModel : Type := {
  heap : gmap positive ComponentAuthorization;
  authorization : gmap string positive;
  _auto_accept_request : bool
}.

(** [__init__]. *)
Definition init : AuthorizationModel :=
  {| heap := ∅; authorization := ∅; _auto_accept_request := true |}.

(** The dictionary a reference points to.  Python has no dangling
    reference; [deref] is total and reads one as an empty dictionary. *)
Definition deref (m : AuthorizationModel) (l : positive) : ComponentAuthorization :=
  default empty_component_authorization (heap m !! l).

(** *** The state-and-exception monad *)

Definition M (A : Type) : Type :=
  AuthorizationModel → result A * AuthorizationModel.

Definition ret {A : Type} (a : A) : M A := λ m, (Ok a, m).

Definition bind {A B : Type} (c : M A) (k : A → M B) : M B :=
  λ m, match c m with
       | (Ok a, m1) => k a m1
       | (Raise e, m1) => (Raise e, m1)
       end.

Definition raise {A : Type} (e : exn) : M A := λ m, (Raise e, m).

(** A pure computation that may raise. *)
Definition lift {A : Type} (r : result A) : M A := λ m, (r, m).

Definition get : M AuthorizationModel := λ m, (Ok m, m).

Declare Scope py_scope.
Delimit Scope py_scope with py.
Notation "x <- c ;; k" := (bind c (λ x, k))
  (at level 100, c at next level, right associativity) : py_scope.
Notation "c ;;; k" := (bind c (λ _, k))
  (at level 100, right associativity) : py_scope.
Local Open Scope py_scope.

(** *** Operations on the heap and on the attributes *)

(** The model with the dictionary [d] at the reference [l]. *)
Definition write (l : positive) (d : ComponentAuthorization) (m : AuthorizationModel)
  : AuthorizationModel :=
  {| heap := <[l := d]> (heap m);
     authorization := authorization m;
     _auto_accept_request := _auto_accept_request m |}.

(** A [dict(...)] call: a new object. *)
Definition new_dict (d : ComponentAuthorization) : M positive :=
  λ m, let l := fresh (dom (heap m)) in (Ok l, write l d m).

(** [d["authorized_users"]] and [d["non_authorized_cscs"]]. *)
Definition getitem (l : positive) : M ComponentAuthorization :=
  λ m, (Ok (deref m l), m).

(** [d["authorized_users"] = users], and in-place updates of that set. *)
Definition setitem_authorized_users (l : positive) (users : gset string) : M unit :=
  λ m, (Ok tt, write l {| authorized_users := users;
                          non_authorized_cscs := non_authorized_cscs (deref m l) |} m).

(** [d["non_authorized_cscs"] = cscs], and in-place updates of that set. *)
Definition setitem_non_authorized_cscs (l : positive) (cscs : gset string) : M unit :=
  λ m, (Ok tt, write l {| authorized_users := authorized_users (deref m l);
                          non_authorized_cscs := cscs |} m).

(** [self.authorization[component]]. *)
Definition authorization_getitem (component : string) : M positive :=
  λ m, match authorization m !! component with
       | Some l => (Ok l, m)
       | None => (Raise (KeyError component), m)
       end.

(** [self.authorization[component] = l]. *)
Definition authorization_setitem (component : string) (l : positive) : M unit :=
  λ m, (Ok tt, {| heap := heap m;
                  authorization := <[component := l]> (authorization m);
                  _auto_accept_request := _auto_accept_request m |}).

(** [self.authorization.pop(component)]. *)
Definition authorization_pop (component : string) : M positive :=
  λ m, match authorization m !! component with
       | Some l => (Ok l, {| heap := heap m;
                             authorization := delete component (authorization m);
                             _auto_accept_request := _auto_accept_request m |})
       | None => (Raise (KeyError component), m)
       end.

(** *** The methods of [AuthorizationModel] *)

Definition _handle_enter_component_in_auth_list (component : string) : M unit :=
  m <- get ;;
  if decide (component ∉ dom (authorization m)) then
    l <- new_dict empty_component_authorization ;;
    authorization_setitem component l
  else ret tt.

Definition _handle_exit_component_in_auth_list (component : string) : M unit :=
  m <- get ;;
  match authorization m !! component with
  | Some l =>
      if decide (size (authorized_users (deref m l)) = 0
                 ∧ size (non_authorized_cscs (deref m l)) = 0)
      then (authorization_pop component ;;; ret tt)
      else ret tt
  | None => ret tt
  end.

(** [dict.get(component, default)]: the default is built before the call,
    whether it is used or not; a stored dictionary is returned itself. *)
Definition get_component_authorization (component : string) : M positive :=
  fallback <- new_dict empty_component_authorization ;;
  m <- get ;;
  ret (default fallback (authorization m !! component)).

Definition get_authorization (component authorized_users non_authorized_cscs : string)
  : M positive :=
  component_authorization <- get_component_authorization component ;;
  users <- lift (utils.parse_auth_request authorized_users) ;;
  let '(authorize_users_to_add, authorize_users_to_remove) := users in
  cscs <- lift (utils.parse_auth_request non_authorized_cscs) ;;
  let '(non_authorized_cscs_to_add, non_authorized_cscs_to_remove) := cscs in
  d <- getitem component_authorization ;;
  setitem_authorized_users component_authorization
    (authorization_model.authorized_users d ∪ authorize_users_to_add) ;;;
  d <- getitem component_authorization ;;
  setitem_authorized_users component_authorization
    (authorization_model.authorized_users d ∖ authorize_users_to_remove) ;;;
  d <- getitem component_authorization ;;
  setitem_non_authorized_cscs component_authorization
    (authorization_model.non_authorized_cscs d ∪ non_authorized_cscs_to_add) ;;;
  d <- getitem component_authorization ;;
  setitem_non_authorized_cscs component_authorization
    (authorization_model.non_authorized_cscs d ∖ non_authorized_cscs_to_remove) ;;;
  ret component_authorization.

(** The two arguments are iterables of names; [set(...)] keeps their
    elements. *)
Definition set_authorization (component : string)
    (authorized_users non_authorized_cscs : list string) : M unit :=
  _handle_enter_component_in_auth_list component ;;;
  l <- authorization_getitem component ;;
  setitem_authorized_users l (list_to_set authorized_users) ;;;
  l <- authorization_getitem component ;;
  setitem_non_authorized_cscs l (list_to_set non_authorized_cscs) ;;;
  _handle_exit_component_in_auth_list component.

Definition set_authorization_mode (auto : bool) : M unit :=
  λ m, (Ok tt, {| heap := heap m;
                  authorization := authorization m;
                  _auto_accept_request := auto |}).

(** The dictionaries that [process_request] yields. *)
Record auth_list_t : Type := {
  authorizedUsers : string;
  nonAuthorizedCSCs : string
}.

Record set_auth_list_t : Type := {
  component : string;
  auth_list : auth_list_t
}.

(** [",".join(names)] on a set: the names in the iteration order of the
    set, which is [elements] here. *)
Definition join_set (names : gset string) : string :=
  str.join "," (elements names).

(** The dictionary built in the body of the loop of [process_request]. *)
Definition make_set_auth_list (component : string)
    (component_authorizaton : ComponentAuthorization) : set_auth_list_t :=
  {| component := component;
     auth_list :=
       {| authorizedUsers := join_set (authorized_users component_authorizaton);
          nonAuthorizedCSCs := join_set (non_authorized_cscs component_authorizaton) |} |}.

(** A run of an asynchronous generator to its end, with nothing else
    touching the model between two items: the items yielded, in order, how
    the generator ended ([Ok tt]: exhausted; [Raise e]: it raised [e] after
    the items), and the model left behind. *)
Definition generator (Y : Type) : Type :=
  AuthorizationModel → (list Y * result unit) * AuthorizationModel.

(** The loop of [process_request] over the components still to process. *)
Fixpoint process_components (components : list string) (request : data.t)
  : generator set_auth_list_t :=
  λ m,
  match components with
  | [] => (([], Ok tt), m)
  | component :: more =>
      match get_authorization component
              (data.authorizedUsers request) (data.nonAuthorizedCSCs request) m with
      | (Raise e, m1) => (([], Raise e), m1)
      | (Ok component_authorizaton, m1) =>
          let set_auth_list :=
            make_set_auth_list component (deref m1 component_authorizaton) in
          let '((items, ending), m2) := process_components more request m1 in
          ((set_auth_list :: items, ending), m2)
      end
  end.

Definition process_request (request : data.t) : generator set_auth_list_t :=
  λ m,
  if negb (_auto_accept_request m) then
    (([], Raise (NotImplementedError "Non-automatic mode not implemented yet.")), m)
  else process_components (str.split utils.comma (data.cscsToChange request)) request m.

(** *** What an observer sees of the store *)

(** The store by value: each component of [self.authorization] with the
    contents of its dictionary. *)
Definition store (m : AuthorizationModel) : gmap string ComponentAuthorization :=
  deref m <$> authorization m.

(** The contents of the dictionary that [get_component_authorization]
    returns, and the model after the call. *)
Definition read_component_authorization (component : string) (m : AuthorizationModel)
  : result ComponentAuthorization * AuthorizationModel :=
  (l <- get_component_authorization component ;; getitem l) m.

(** The contents of the dictionary that [get_authorization] returns, and
    the model after the call. *)
Definition read_authorization (component authorized_users non_authorized_cscs : string)
    (m : AuthorizationModel)
  : result ComponentAuthorization * AuthorizationModel :=
  (l <- get_authorization component authorized_users non_authorized_cscs ;; getitem l) m.

(** The presence invariant: a stored component has a non-empty set. *)
Definition presence_invariant (m : AuthorizationModel) : Prop :=
  ∀ component d, store m !! component = Some d →
    authorized_users d ≠ ∅ ∨ non_authorized_cscs d ≠ ∅.

(** Well-formed models: every stored reference points to a dictionary of
    the heap, and two components never share a dictionary.  [__init__]
    builds such a model and every method keeps it so. *)
Definition well_formed (m : AuthorizationModel) : Prop :=
  (∀ component l, authorization m !! component = Some l → is_Some (heap m !! l))
  ∧ (∀ c1 c2 l, authorization m !! c1 = Some l →
                authorization m !! c2 = Some l → c1 = c2).

(** The diff that [get_authorization] computes from the current
    dictionary [d] of a component and the two parsed expressions. *)
Definition apply_request (d : ComponentAuthorization)
    (users cscs : gset string * gset string) : ComponentAuthorization :=
  {| authorized_users := (authorized_users d ∪ users.1) ∖ users.2;
     non_authorized_cscs := (non_authorized_cscs d ∪ cscs.1) ∖ cscs.2 |}.

(** *** Scenarios *)

(** The model after [__init__] and [set_authorization("Test", {"u1"}, {})]. *)
Definition test_u1 : AuthorizationModel :=
  (set_authorization "Test" ["u1"] [] init).2.

(** The model after [__init__] and
    [set_authorization("Test", {"b", "c"}, {"p"})]. *)
Definition test_bc_p : AuthorizationModel :=
  (set_authorization "Test" ["b"; "c"] ["p"] init).2.

(** A model in manual mode. *)
Definition manual : AuthorizationModel :=
  (set_authorization_mode false test_u1).2.

End authorization_model.

(** ** Further vocabulary on strings *)

Module text.

(** [s.count(ch)] for a character. *)
Fixpoint count (ch : ascii) (s : string) : nat :=
  match s with
  | EmptyString => 0
  | String c rest => (if decide (c = ch) then 1 else 0) + count ch rest
  end.

(** The string holds no comma. *)
Definition comma_free (s : string) : Prop := count utils.comma s = 0.

End text.

(** ** csc.py *)

Module csc.

(** A sample of the [authList] event of a remote: its two string fields,
    and its integer attributes by name, which is what [hasattr] and
    [getattr] look at. *)
Record authList : Type := {
  attributes : gmap string Z;
  authorizedUsers : string;
  nonAuthorizedCSCs : string
}.

(** The name under which [_handle_auth_list_for_component] files the
    sample: [f"{component}:{index}"] when the sample has the attribute
    [f"{component}ID"], and the component itself otherwise. *)
Definition component_name (data : authList) (component : string) : string :=
  match attributes data !! (component +:+ "ID") with
  | Some index => component +:+ ":" +:+ pretty index
  | None => component
  end.

(** [set(field.split(",")) - {""}]. *)
Definition names (field : string) : gset string :=
  list_to_set (str.split utils.comma field) ∖ {[ "" ]}.

Definition _handle_auth_list_for_component (data : authList) (component : string)
  : authorization_model.M unit :=
  authorization_model.set_authorization (component_name data component)
    (elements (names (authorizedUsers data)))
    (elements (names (nonAuthorizedCSCs data))).

(** *** The components with an IDL file *)

Definition newline : ascii := "010"%char.

(** [s[n:]]. *)
Fixpoint skip (n : nat) (s : string) : string :=
  match n, s with
  | 0, _ => s
  | S n', String _ rest => skip n' rest
  | S _, EmptyString => EmptyString
  end.

(** What the group of the pattern (any characters but a newline, as many
    as possible) captures at the start of [s]: the characters up to the
    first newline. *)
Fixpoint line (s : string) : string :=
  match s with
  | EmptyString => EmptyString
  | String c rest => if decide (c = newline) then EmptyString else String c (line rest)
  end.

Definition sal_revCoded : string := "sal_revCoded_".

(** [get_available_components], on the stems of the IDL files of the IDL
    directory: the pattern, [sal_revCoded_] followed by the group, has to
    match at the start of the stem, and the first match that [findall] finds
    is then that one. *)
Definition get_available_components (idl_stems : list string) : gset string :=
  list_to_set
    ((λ stem, line (skip (String.length sal_revCoded) stem))
       <$> filter (λ stem, String.prefix sal_revCoded stem = true) idl_stems).

(** *** Remotes *)

(** [salobj.Remote(domain=self.domain, name=component, include=["authList"])];
    the domain is the one of the CSC. *)
Record Remote : Type := {
  name : string;
  include : list string
}.

Definition new_remote (component : string) : Remote :=
  {| name := component; include := ["authList"] |}.

(** How [_create_remotes_for_components] ends: with the dictionary
    [self._remotes], or with the [RuntimeError] whose message lists the
    components that are not available. *)
Inductive remotes_outcome : Type :=
  | Remotes (_remotes : gmap string Remote)
  | NotAvailable (missing : gset string).

Definition _create_remotes_for_components (idl_stems : list string)
    (components : gset string) (_remotes : gmap string Remote) : remotes_outcome :=
  let available_components := get_available_components idl_stems ∖ {[ "LOVE" ]} in
  if decide (components ≠ components ∩ available_components) then
    NotAvailable (components ∖ available_components)
  else
    Remotes
      (foldl (λ remotes component,
                if decide (component ∉ dom remotes)
                then <[component := new_remote component]> remotes
                else remotes)
         _remotes (elements components)).

(** The remotes that [__init__] creates. *)
Definition init_remotes (idl_stems : list string)
    (components_to_handle : option (gset string)) : remotes_outcome :=
  _create_remotes_for_components idl_stems
    (default (get_available_components idl_stems ∖ {[ "LOVE" ]}) components_to_handle)
    ∅.

(** *** Histories of the model *)

(** A call of a method of the model, or of the event handler of the CSC. *)
Inductive operation : Type :=
  | SetAuthorization (component : string) (authorized_users non_authorized_cscs : list string)
  | SetAuthorizationMode (auto : bool)
  | GetComponentAuthorization (component : string)
  | GetAuthorization (component authorized_users non_authorized_cscs : string)
  | ProcessRequest (request : data.t)
  | HandleAuthList (data : authList) (component : string).

(** The model after a call; an exception of the call is caught by the
    caller and leaves the model as the call left it. *)
Definition after (op : operation) (m : authorization_model.AuthorizationModel)
  : authorization_model.AuthorizationModel :=
  match op with
  | SetAuthorization c us cs => (authorization_model.set_authorization c us cs m).2
  | SetAuthorizationMode auto => (authorization_model.set_authorization_mode auto m).2
  | GetComponentAuthorization c => (authorization_model.get_component_authorization c m).2
  | GetAuthorization c us cs => (authorization_model.get_authorization c us cs m).2
  | ProcessRequest request => (authorization_model.process_request request m).2
  | HandleAuthList data c => (_handle_auth_list_for_component data c m).2
  end.

(** The model after a history of calls, the first call first. *)
Definition after_all (ops : list operation) (m : authorization_model.AuthorizationModel)
  : authorization_model.AuthorizationModel :=
  foldl (λ m op, after op m) m ops.

(** The calls that do not go through [get_authorization]. *)
Definition commits_or_reads (op : operation) : Prop :=
  match op with
  | GetAuthorization _ _ _ | ProcessRequest _ => False
  | _ => True
  end.

(** Scenario: a sample of ["MTHexapod"] with index 1. *)
Definition hexapod_1 : authList :=
  {| attributes := {[ "MTHexapodID" := 1%Z ]};
     authorizedUsers := "user1@node1,user2@node2";
     nonAuthorizedCSCs := "MTRotator" |}.

End csc.

(** * Properties *)

(** ** Sets and strings *)

Lemma size_list_to_set_le `{Countable A} (l : list A) :
  size (list_to_set l : gset A) ≤ List.length l.
Proof.
  induction l as [|x l IH].
  - rewrite list_to_set_nil, size_empty. done.
  - rewrite list_to_set_cons, size_union_alt, size_singleton. simpl.
    assert (Hle : size (list_to_set l ∖ {[x]} : gset A) ≤ size (list_to_set l : gset A)).
    { apply subseteq_size. by intros y [Hy _]%elem_of_difference. }
    lia.
Qed.

Section set_map_size.
Context `{Countable A, Countable B} (f : A → B).

Lemma size_set_map_le (X : gset A) : size (set_map f X : gset B) ≤ size X.
Proof.
  unfold set_map. etrans; [apply size_list_to_set_le|].
  by rewrite length_fmap.
Qed.

Lemma size_set_map_inj (X : gset A) :
  (∀ x y, x ∈ X → y ∈ X → f x = f y → x = y) →
  size (set_map f X : gset B) = size X.
Proof.
  intros Hinj. unfold set_map.
  rewrite size_list_to_set, length_fmap; [done|].
  apply NoDup_fmap_2_strong; [|apply NoDup_elements].
  intros x y Hx%elem_of_elements Hy%elem_of_elements. by apply Hinj.
Qed.

End set_map_size.

Lemma split_not_nil sep s : str.split sep s ≠ [].
Proof. destruct s as [|ch s]; simpl; [done|]. case_decide; [done|]. by destruct (str.split sep s). Qed.

Lemma split_empty_request sep tok :
  tok ∈ str.split sep "" → tok = "".
Proof. simpl. by intros ->%list_elem_of_singleton. Qed.

Lemma startswith_spec prefix item :
  str.startswith prefix item = true ↔ item = String prefix (str.drop_first item).
Proof.
  destruct item as [|ch rest]; simpl; [split; [done|congruence]|].
  rewrite bool_decide_eq_true. split; [by intros ->|congruence].
Qed.

(** ** The request parser *)

Section parse.
Import utils.

Lemma lacks_sign_spec item : lacks_sign item = true ↔ ¬ signed item.
Proof.
  unfold lacks_sign, signed.
  destruct (str.startswith plus_sign item), (str.startswith minus_sign item);
    simpl; naive_solver.
Qed.

Lemma signed_tokens_union request :
  filter (λ item, str.startswith plus_sign item = true) (tokens request)
  ∪ filter (λ item, str.startswith minus_sign item = true) (tokens request)
  = filter signed (tokens request).
Proof. apply set_eq. intros tok. unfold signed. set_solver. Qed.

Lemma parse_unfold request :
  request ≠ "" →
  parse_auth_request request =
    if decide (size (set_map str.drop_first (filter signed (tokens request)) : gset string)
               ≠ size (tokens request))
    then Raise (RuntimeError request (filter (λ item, lacks_sign item = true) (tokens request)))
    else Ok (set_map str.drop_first
               (filter (λ item, str.startswith plus_sign item = true) (tokens request)),
             set_map str.drop_first
               (filter (λ item, str.startswith minus_sign item = true) (tokens request))).
Proof.
  intros Hne. unfold parse_auth_request.
  destruct (decide (String.length request = 0)) as [Hlen|_].
  { destruct request; [done|discriminate]. }
  cbv zeta. fold (tokens request).
  by rewrite <- set_map_union_L, signed_tokens_union.
Qed.

Lemma signed_inv item :
  signed item →
  item = String plus_sign (str.drop_first item)
  ∨ item = String minus_sign (str.drop_first item).
Proof. unfold signed. rewrite !startswith_spec. tauto. Qed.

Lemma tokens_nonempty_request request tok :
  tok ∈ tokens request → tok ≠ "" → request ≠ "".
Proof.
  intros Hin Hne ->. apply Hne, (split_empty_request comma).
  by apply elem_of_list_to_set in Hin.
Qed.

(** A token without sign makes the sizes differ. *)
Lemma size_differs_unsigned request tok :
  tok ∈ tokens request → lacks_sign tok = true →
  size (set_map str.drop_first (filter signed (tokens request)) : gset string)
  < size (tokens request).
Proof.
  intros Hin Hlack%lacks_sign_spec.
  eapply Nat.le_lt_trans; [apply size_set_map_le|].
  apply subset_size. split.
  - by intros x [_ Hx]%elem_of_filter.
  - intros Hsub. by apply Hsub, elem_of_filter in Hin as [? _].
Qed.

(** An item both added and removed makes the sizes differ. *)
Lemma size_differs_conflict request item :
  String plus_sign item ∈ tokens request →
  String minus_sign item ∈ tokens request →
  size (set_map str.drop_first (filter signed (tokens request)) : gset string)
  < size (tokens request).
Proof.
  intros Hplus Hminus.
  set (S := filter signed (tokens request)).
  assert (Hsame : (set_map str.drop_first S : gset string)
                  = set_map str.drop_first (S ∖ {[String minus_sign item]})).
  { apply set_eq. intros y. rewrite !elem_of_map. split.
    - intros (x & -> & Hx).
      destruct (decide (x = String minus_sign item)) as [->|Hne].
      + exists (String plus_sign item). split; [done|].
        apply elem_of_difference. split.
        * apply elem_of_filter. split; [by left|done].
        * by intros [=]%elem_of_singleton.
      + exists x. split; [done|]. apply elem_of_difference.
        split; [done|]. by intros ?%elem_of_singleton.
    - intros (x & -> & [Hx _]%elem_of_difference). by exists x. }
  rewrite Hsame.
  eapply Nat.le_lt_trans; [apply size_set_map_le|].
  eapply Nat.lt_le_trans with (size S).
  - apply subset_size. split.
    + by intros x [Hx _]%elem_of_difference.
    + intros Hsub.
      assert (Hin : String minus_sign item ∈ S).
      { apply elem_of_filter. split; [by right|done]. }
      apply Hsub, elem_of_difference in Hin as [_ Hin].
      by apply Hin, elem_of_singleton.
  - apply subseteq_size. by intros x [_ Hx]%elem_of_filter.
Qed.

(** Tokens that all carry a sign, with no item both added and removed,
    keep the sizes equal. *)
Lemma size_same_valid request :
  (∀ tok, tok ∈ tokens request → signed tok) →
  (∀ item, String plus_sign item ∈ tokens request →
           String minus_sign item ∈ tokens request → False) →
  size (set_map str.drop_first (filter signed (tokens request)) : gset string)
  = size (tokens request).
Proof.
  intros Hsigned Hno.
  assert (Hall : filter signed (tokens request) = tokens request).
  { apply set_eq. intros x. rewrite elem_of_filter. naive_solver. }
  rewrite Hall. apply size_set_map_inj.
  intros x y Hx Hy Heq.
  destruct (signed_inv x (Hsigned x Hx)) as [Ex|Ex],
           (signed_inv y (Hsigned y Hy)) as [Ey|Ey];
    rewrite Ex, Ey, Heq; try done; exfalso; apply (Hno (str.drop_first y)); congruence.
Qed.

Lemma parse_raises_iff request :
  is_raise (parse_auth_request request)
  ↔ request ≠ "" ∧ (has_unsigned request ∨ has_conflict request).
Proof.
  destruct (decide (request = "")) as [->|Hne]; [by split; [|intros [? _]]|].
  rewrite parse_unfold by done. case_decide as Hsize; simpl.
  - split; [intros _; split; [done|]|done].
    destruct (set_choose_or_empty (filter (λ item, lacks_sign item = true) (tokens request)))
      as [(tok & Hin%elem_of_filter)|Hnone]; [left; exists tok; tauto|].
    right.
    destruct (decide (set_Exists (λ tok, String minus_sign (str.drop_first tok) ∈ tokens request
                                         ∧ str.startswith plus_sign tok = true)
                        (tokens request))) as [(tok & Hin & Hm & Hp)|Hnex].
    { exists (str.drop_first tok). split; [|done].
      apply startswith_spec in Hp. by rewrite <- Hp. }
    exfalso. apply Hsize, size_same_valid.
    + intros tok Hin. apply dec_stable. intros Hl%lacks_sign_spec.
      apply (proj1 (elem_of_equiv_empty _) Hnone tok), elem_of_filter. done.
    + intros item Hp Hm. apply Hnex. exists (String plus_sign item).
      by repeat split.
  - split; [done|]. intros [_ [(tok & Hin & Hl)|(item & Hp & Hm)]]; exfalso.
    + pose proof (size_differs_unsigned _ _ Hin Hl). lia.
    + pose proof (size_differs_conflict _ _ Hp Hm). lia.
Qed.

Lemma parse_empty : parse_auth_request "" = Ok (∅, ∅).
Proof. reflexivity. Qed.

Lemma parse_raise_inv request e :
  parse_auth_request request = Raise e →
  request ≠ "" ∧
  e = RuntimeError request (filter (λ item, lacks_sign item = true) (tokens request)).
Proof.
  destruct (decide (request = "")) as [->|Hne]; [done|].
  rewrite parse_unfold by done. case_decide; [|done]. by intros [= <-].
Qed.

(** C3, as the specification states it, fails: the error raised for
    ["+a,-a"] lists no entry at all, although both tokens of the request
    are offending in the sense of the specification.  *)
Lemma parse_error_omits_conflicting_tokens :
  ¬ (∀ request e tok,
       parse_auth_request request = Raise e →
       spec_offending request tok →
       tok ∈ listed_entries e).
Proof.
  intros Hclaim.
  assert (Hin : "+a" ∈ listed_entries (RuntimeError "+a,-a" ∅)).
  { apply (Hclaim "+a,-a" _ "+a"); [reflexivity|].
    split; [by vm_compute|]. right. exists "a".
    split; [by left|]. split; by vm_compute. }
  by apply not_elem_of_empty in Hin.
Qed.

(** C3, amended: whenever the parser fails, which it does exactly on a
    non-empty request with a token that lacks its sign or with an item both
    added and removed, it raises a [RuntimeError] whose message carries the
    request and lists exactly the raw tokens that lack a [+] or [-] sign,
    every one of them and verbatim; a token that carries a sign is not
    listed, whether or not its item is both added and removed. *)
Theorem parse_error_lists_unsigned_tokens request e :
  parse_auth_request request = Raise e →
  (request ≠ "" ∧ (has_unsigned request ∨ has_conflict request)) ∧
  e = RuntimeError request (listed_entries e) ∧
  ∀ tok, tok ∈ listed_entries e
         ↔ tok ∈ str.split comma request ∧ lacks_sign tok = true.
Proof.
  intros Hraise. split.
  { apply parse_raises_iff. by rewrite Hraise. }
  apply parse_raise_inv in Hraise as [_ ->]. split; [done|].
  intros tok. simpl. unfold tokens.
  rewrite elem_of_filter, elem_of_list_to_set. tauto.
Qed.

Lemma parse_error_lists_unsigned_tokens_witness :
  parse_auth_request "+a,b,-c,d" = Raise (RuntimeError "+a,b,-c,d" {[ "b"; "d" ]}) ∧
  ∀ tok, tok ∈ ({[ "b"; "d" ]} : gset string)
         ↔ tok ∈ str.split comma "+a,b,-c,d" ∧ lacks_sign tok = true.
Proof.
  assert (Hraise : parse_auth_request "+a,b,-c,d"
                   = Raise (RuntimeError "+a,b,-c,d" {[ "b"; "d" ]}))
    by (vm_compute; reflexivity).
  split; [exact Hraise|].
  exact (proj2 (proj2 (parse_error_lists_unsigned_tokens _ _ Hraise))).
Defined.

(** C7: a request that both adds and removes the same item fails with the
    parser's [RuntimeError]; ["+a,-a"] is such a request. *)
Theorem parse_conflict_raises request item :
  String plus_sign item ∈ str.split comma request →
  String minus_sign item ∈ str.split comma request →
  ∃ bad_entries, parse_auth_request request = Raise (RuntimeError request bad_entries).
Proof.
  intros Hp Hm.
  assert (Hraise : is_raise (parse_auth_request request)).
  { apply parse_raises_iff. split.
    - apply (tokens_nonempty_request _ (String plus_sign item)); [|done].
      by apply elem_of_list_to_set.
    - right. exists item. split; by apply elem_of_list_to_set. }
  destruct (parse_auth_request request) as [|e] eqn:Hparse; [done|].
  apply parse_raise_inv in Hparse as [_ ->]. eauto.
Qed.

Lemma parse_conflict_raises_witness :
  "+a" ∈ str.split comma "+a,-a" ∧ "-a" ∈ str.split comma "+a,-a" ∧
  ∃ bad_entries, parse_auth_request "+a,-a" = Raise (RuntimeError "+a,-a" bad_entries).
Proof.
  assert (Hp : "+a" ∈ str.split comma "+a,-a").
  { change ("+a" ∈ ["+a"; "-a"]). apply list_elem_of_here. }
  assert (Hm : "-a" ∈ str.split comma "+a,-a").
  { change ("-a" ∈ ["+a"; "-a"]). apply list_elem_of_further, list_elem_of_here. }
  split; [exact Hp|]. split; [exact Hm|].
  exact (parse_conflict_raises "+a,-a" "a" Hp Hm).
Defined.

End parse.

(** ** The authorization store *)

Section model.
Import utils authorization_model.

Implicit Types (m : AuthorizationModel) (l : positive) (d : ComponentAuthorization).

Lemma deref_write_eq l d m : deref (write l d m) l = d.
Proof. unfold deref, write; simpl. by rewrite lookup_insert_eq. Qed.

Lemma deref_write_ne l l' d m : l ≠ l' → deref (write l d m) l' = deref m l'.
Proof. intros. unfold deref, write; simpl. by rewrite lookup_insert_ne. Qed.

Lemma write_write l d d' m : write l d (write l d' m) = write l d m.
Proof. unfold write; simpl. by rewrite insert_insert_eq. Qed.

Lemma fresh_unallocated m : heap m !! fresh (dom (heap m)) = None.
Proof. apply not_elem_of_dom, is_fresh. Qed.

(** Creating an empty dictionary changes what no reference reads. *)
Lemma deref_new_dict m l :
  deref (new_dict empty_component_authorization m).2 l = deref m l.
Proof.
  unfold new_dict; simpl.
  destruct (decide (fresh (dom (heap m)) = l)) as [<-|Hne].
  - rewrite deref_write_eq. unfold deref. by rewrite fresh_unallocated.
  - by rewrite deref_write_ne.
Qed.

Lemma get_component_authorization_run component m :
  get_component_authorization component m
  = (Ok (default (fresh (dom (heap m))) (authorization m !! component)),
     (new_dict empty_component_authorization m).2).
Proof. reflexivity. Qed.

Lemma read_component_authorization_run component m :
  read_component_authorization component m
  = (Ok (default empty_component_authorization (store m !! component)),
     (new_dict empty_component_authorization m).2).
Proof.
  unfold read_component_authorization, bind.
  rewrite get_component_authorization_run. unfold getitem. f_equal. f_equal.
  rewrite deref_new_dict. unfold store. rewrite lookup_fmap.
  destruct (authorization m !! component) as [l|]; simpl; [done|].
  unfold deref. by rewrite fresh_unallocated.
Qed.

(** [get_component_authorization] leaves the store and the mode as they
    are. *)
Lemma get_component_authorization_store component m :
  store (get_component_authorization component m).2 = store m
  ∧ _auto_accept_request (get_component_authorization component m).2
    = _auto_accept_request m.
Proof.
  rewrite get_component_authorization_run. split; [|done].
  apply map_eq. intros c. unfold store. rewrite !lookup_fmap. simpl.
  destruct (authorization m !! c) as [l|]; simpl; [|done].
  f_equal. apply deref_new_dict.
Qed.

(** The dictionary that [get_authorization] returns, and the model it
    leaves, for two expressions that parse. *)
Lemma get_authorization_run component ue pe au ru ap rp m :
  parse_auth_request ue = Ok (au, ru) →
  parse_auth_request pe = Ok (ap, rp) →
  let l := default (fresh (dom (heap m))) (authorization m !! component) in
  get_authorization component ue pe m
  = (Ok l,
     write l {| authorized_users := (authorized_users (deref m l) ∪ au) ∖ ru;
                non_authorized_cscs := (non_authorized_cscs (deref m l) ∪ ap) ∖ rp |}
       (new_dict empty_component_authorization m).2).
Proof.
  intros Hu Hp l. unfold get_authorization, bind.
  rewrite get_component_authorization_run. fold l.
  unfold lift. rewrite Hu, Hp.
  unfold getitem, setitem_authorized_users, setitem_non_authorized_cscs, ret.
  rewrite !deref_write_eq, !write_write, !deref_new_dict. done.
Qed.

Lemma deref_current component m :
  deref m (default (fresh (dom (heap m))) (authorization m !! component))
  = default empty_component_authorization (store m !! component).
Proof.
  unfold store. rewrite lookup_fmap.
  destruct (authorization m !! component) as [l|]; simpl; [done|].
  unfold deref. by rewrite fresh_unallocated.
Qed.

Lemma read_authorization_run component ue pe au ru ap rp m :
  parse_auth_request ue = Ok (au, ru) →
  parse_auth_request pe = Ok (ap, rp) →
  let current := default empty_component_authorization (store m !! component) in
  (read_authorization component ue pe m).1
  = Ok {| authorized_users := (authorized_users current ∪ au) ∖ ru;
          non_authorized_cscs := (non_authorized_cscs current ∪ ap) ∖ rp |}.
Proof.
  intros Hu Hp current. unfold read_authorization, bind.
  rewrite (get_authorization_run _ _ _ _ _ _ _ _ Hu Hp).
  unfold getitem; simpl. by rewrite deref_write_eq, deref_current.
Qed.

(** C4: the dictionary returned by [get_authorization] holds, for each of
    the two sets, the current set of the component (as
    [get_component_authorization] reads it) united with the additions and
    then deprived of the removals of the corresponding expression, whenever
    both expressions parse; for the request [("+a,-b", "+x")] on a
    component with current state [(U, P)] this is
    [((U ∪ {a}) ∖ {b}, P ∪ {x})]. *)
Theorem get_authorization_diff component U P m :
  (read_component_authorization component m).1
  = Ok {| authorized_users := U; non_authorized_cscs := P |} →
  (∀ ue pe au ru ap rp,
     parse_auth_request ue = Ok (au, ru) →
     parse_auth_request pe = Ok (ap, rp) →
     (read_authorization component ue pe m).1
     = Ok {| authorized_users := (U ∪ au) ∖ ru;
             non_authorized_cscs := (P ∪ ap) ∖ rp |})
  ∧ (read_authorization component "+a,-b" "+x" m).1
    = Ok {| authorized_users := (U ∪ {[ "a" ]}) ∖ {[ "b" ]};
            non_authorized_cscs := P ∪ {[ "x" ]} |}.
Proof.
  rewrite read_component_authorization_run. cbn [fst]. intros [= Hcur].
  assert (Hgen : ∀ ue pe au ru ap rp,
     parse_auth_request ue = Ok (au, ru) →
     parse_auth_request pe = Ok (ap, rp) →
     (read_authorization component ue pe m).1
     = Ok {| authorized_users := (U ∪ au) ∖ ru;
             non_authorized_cscs := (P ∪ ap) ∖ rp |}).
  { intros ue pe au ru ap rp Hu Hp.
    rewrite (read_authorization_run _ _ _ _ _ _ _ _ Hu Hp). by rewrite Hcur. }
  split; [done|].
  rewrite (Hgen "+a,-b" "+x" {[ "a" ]} {[ "b" ]} {[ "x" ]} ∅) by reflexivity.
  by rewrite difference_empty_L.
Qed.

Lemma get_authorization_diff_witness :
  (read_component_authorization "Test" test_bc_p).1
  = Ok {| authorized_users := {[ "b"; "c" ]}; non_authorized_cscs := {[ "p" ]} |}
  ∧ (read_authorization "Test" "+a,-b" "+x" test_bc_p).1
    = Ok {| authorized_users := ({[ "b"; "c" ]} ∪ {[ "a" ]}) ∖ {[ "b" ]};
            non_authorized_cscs := {[ "p" ]} ∪ {[ "x" ]} |}.
Proof.
  assert (Hcur : (read_component_authorization "Test" test_bc_p).1
                 = Ok {| authorized_users := {[ "b"; "c" ]};
                         non_authorized_cscs := {[ "p" ]} |})
    by (vm_compute; reflexivity).
  split; [exact Hcur|].
  exact (proj2 (get_authorization_diff "Test" _ _ test_bc_p Hcur)).
Defined.

(** *** Well-formed models and the store by value *)

Lemma well_formed_init : well_formed init.
Proof. split; intros *; unfold init; simpl; by rewrite lookup_empty. Qed.

Lemma well_formed_write l d m : well_formed m → well_formed (write l d m).
Proof.
  intros [Halloc Hinj]. split; [|done].
  intros c l' Hc. cbn [write heap authorization] in *.
  destruct (decide (l = l')) as [->|Hne].
  - rewrite lookup_insert_eq. eauto.
  - rewrite lookup_insert_ne by done. eauto.
Qed.

Lemma well_formed_unallocated m component :
  well_formed m → authorization m !! component ≠ Some (fresh (dom (heap m))).
Proof.
  intros [Halloc _] Hc. apply Halloc in Hc as [d Hd].
  by rewrite fresh_unallocated in Hd.
Qed.

(** Writing to the dictionary of a stored component changes the entry of
    that component and no other. *)
Lemma store_write_stored component l d m :
  well_formed m → authorization m !! component = Some l →
  store (write l d m) = <[component := d]> (store m).
Proof.
  intros [_ Hinj] Hc. apply map_eq. intros c. unfold store.
  rewrite lookup_insert, !lookup_fmap. cbn [write authorization].
  case_decide as Heq.
  - subst c. rewrite Hc. simpl. by rewrite deref_write_eq.
  - destruct (authorization m !! c) as [l'|] eqn:Hc'; simpl; [|done].
    rewrite deref_write_ne; [done|]. intros ->. apply Heq. eauto.
Qed.

(** Writing to a dictionary that no component holds changes nothing in the
    store. *)
Lemma store_write_unstored l d m :
  (∀ component, authorization m !! component ≠ Some l) →
  store (write l d m) = store m.
Proof.
  intros Hnone. apply map_eq. intros c. unfold store.
  rewrite !lookup_fmap. cbn [write authorization].
  destruct (authorization m !! c) as [l'|] eqn:Hc; simpl; [|done].
  rewrite deref_write_ne; [done|]. intros ->. by apply (Hnone c).
Qed.

(** *** What [get_authorization] does to the store *)

(** For two expressions that parse, [get_authorization] keeps the model
    well formed and leaves the store unchanged if the component is not a key
    of the store; if it is, the entry of the component is replaced by the
    diff. *)
Lemma get_authorization_store component ue pe users cscs m :
  well_formed m →
  parse_auth_request ue = Ok users →
  parse_auth_request pe = Ok cscs →
  well_formed (get_authorization component ue pe m).2
  ∧ store (get_authorization component ue pe m).2
    = match store m !! component with
      | Some d => <[component := apply_request d users cscs]> (store m)
      | None => store m
      end.
Proof.
  intros Hwf Hu Hp. destruct users as [au ru], cscs as [ap rp].
  rewrite (get_authorization_run _ _ _ _ _ _ _ _ Hu Hp). cbn [snd].
  assert (Hwf0 : well_formed (new_dict empty_component_authorization m).2)
    by apply well_formed_write, Hwf.
  split; [by apply well_formed_write|].
  pose proof (proj1 (get_component_authorization_store component m)) as Hstore0.
  rewrite get_component_authorization_run in Hstore0. cbn [snd] in Hstore0.
  unfold store at 2. rewrite lookup_fmap.
  destruct (authorization m !! component) as [l|] eqn:Hc; cbn [default fmap option_fmap option_map].
  - rewrite (store_write_stored component) by done. by rewrite Hstore0.
  - rewrite store_write_unstored; [done|].
    intros c. apply (well_formed_unallocated m c Hwf).
Qed.

(** *** [set_authorization] *)

Lemma handle_enter_run component m :
  ∃ l m1,
    _handle_enter_component_in_auth_list component m = (Ok tt, m1)
    ∧ authorization m1 !! component = Some l
    ∧ (well_formed m → well_formed m1)
    ∧ (∀ c, c ≠ component → store m1 !! c = store m !! c)
    ∧ _auto_accept_request m1 = _auto_accept_request m.
Proof.
  unfold _handle_enter_component_in_auth_list, bind, get.
  destruct (authorization m !! component) as [l|] eqn:Hc.
  - exists l, m. rewrite decide_False; [done|].
    intros Hnot. apply Hnot, elem_of_dom. eauto.
  - eexists _, _. rewrite decide_True by by apply not_elem_of_dom.
    unfold new_dict, authorization_setitem; cbn [fst snd].
    split; [reflexivity|]. cbn [authorization _auto_accept_request write].
    split; [apply lookup_insert_eq|]. split; [|split; [|done]].
    + intros [Halloc Hinj]. split; cbn [heap authorization write].
      * intros c l. rewrite lookup_insert. case_decide; [intros [= <-]|intros Hl].
        -- rewrite lookup_insert_eq. eauto.
        -- rewrite lookup_insert_ne; [eauto|]. intros <-.
           apply Halloc in Hl as [d Hd]. by rewrite fresh_unallocated in Hd.
      * intros c1 c2 l. rewrite !lookup_insert.
        repeat case_decide; subst; try done.
        -- intros [= <-] Hl. apply Halloc in Hl as [d Hd].
           by rewrite fresh_unallocated in Hd.
        -- intros Hl [= <-]. apply Halloc in Hl as [d Hd].
           by rewrite fresh_unallocated in Hd.
        -- apply Hinj.
    + intros c Hne. unfold store. rewrite !lookup_fmap. cbn [authorization].
      rewrite lookup_insert_ne by done.
      destruct (authorization m !! c) as [l|]; simpl; [|done]. f_equal.
      apply (deref_new_dict m l).
Qed.

Lemma handle_exit_run component l m :
  authorization m !! component = Some l →
  _handle_exit_component_in_auth_list component m
  = (Ok tt,
     if decide (size (authorized_users (deref m l)) = 0
                ∧ size (non_authorized_cscs (deref m l)) = 0)
     then {| heap := heap m;
             authorization := delete component (authorization m);
             _auto_accept_request := _auto_accept_request m |}
     else m).
Proof.
  intros Hc. unfold _handle_exit_component_in_auth_list, bind, get. rewrite Hc.
  case_decide; [|done].
  unfold authorization_pop. by rewrite Hc.
Qed.

(** [set_authorization] never raises: it writes the two sets into the
    dictionary of the component and then drops the component if both sets
    are empty. *)
Lemma set_authorization_run component us ps m :
  ∃ l m1,
    authorization m1 !! component = Some l
    ∧ (well_formed m → well_formed m1)
    ∧ (∀ c, c ≠ component → store m1 !! c = store m !! c)
    ∧ _auto_accept_request m1 = _auto_accept_request m
    ∧ set_authorization component us ps m
      = (Ok tt,
         let m2 := write l {| authorized_users := list_to_set us;
                              non_authorized_cscs := list_to_set ps |} m1 in
         if decide (size (list_to_set us : gset string) = 0
                    ∧ size (list_to_set ps : gset string) = 0)
         then {| heap := heap m2;
                 authorization := delete component (authorization m2);
                 _auto_accept_request := _auto_accept_request m2 |}
         else m2).
Proof.
  destruct (handle_enter_run component m) as (l & m1 & Henter & Hl & Hwf & Hoff & Hmode).
  exists l, m1. do 4 (split; [done|]).
  unfold set_authorization, bind. rewrite Henter.
  unfold authorization_getitem. rewrite Hl.
  unfold setitem_authorized_users, setitem_non_authorized_cscs; simpl.
  rewrite Hl, deref_write_eq, write_write; simpl.
  rewrite (handle_exit_run component l) by done.
  by rewrite deref_write_eq.
Qed.

(** What [get_component_authorization] reads right after a
    [set_authorization] of the same component. *)
Lemma set_authorization_read component us ps m :
  (read_component_authorization component (set_authorization component us ps m).2).1
  = Ok {| authorized_users := list_to_set us;
          non_authorized_cscs := list_to_set ps |}.
Proof.
  destruct (set_authorization_run component us ps m) as (l & m1 & Hl & _ & _ & _ & ->).
  rewrite read_component_authorization_run. cbn [fst snd]. f_equal.
  unfold store. rewrite lookup_fmap. case_decide as Hempty.
  - cbn [authorization]. rewrite lookup_delete_eq. simpl.
    destruct Hempty as [Hu%size_empty_inv%leibniz_equiv Hp%size_empty_inv%leibniz_equiv].
    by rewrite Hu, Hp.
  - cbn [authorization write]. rewrite Hl. simpl. by rewrite deref_write_eq.
Qed.

(** C8: [set_authorization] returns normally, and the dictionary that
    [get_component_authorization] returns right after it holds exactly the
    two sets that were committed, [set(authorized_users)] and
    [set(non_authorized_cscs)]; every pair of sets [(U, P)] is committed by
    passing enumerations of [U] and of [P]. *)
Theorem set_authorization_then_get component us ps m :
  (set_authorization component us ps m).1 = Ok tt ∧
  (read_component_authorization component (set_authorization component us ps m).2).1
  = Ok {| authorized_users := list_to_set us;
          non_authorized_cscs := list_to_set ps |}.
Proof.
  split; [|apply set_authorization_read].
  by destruct (set_authorization_run component us ps m) as (l & m1 & _ & _ & _ & _ & ->).
Qed.

(** C9: after [set_authorization] with two empty collections the component
    is not a key of [self.authorization] (nor of the store read by value),
    and [get_component_authorization] returns two empty sets. *)
Theorem set_authorization_empty_prunes component m :
  let m' := (set_authorization component [] [] m).2 in
  authorization m' !! component = None
  ∧ (component ∉ dom (authorization m'))
  ∧ (component ∉ dom (store m'))
  ∧ (read_component_authorization component m').1 = Ok empty_component_authorization.
Proof.
  pose proof (set_authorization_read component [] [] m) as Hread.
  assert (Habsent :
    authorization (set_authorization component [] [] m).2 !! component = None).
  { destruct (set_authorization_run component [] [] m)
      as (l & m1 & _ & _ & _ & _ & ->).
    cbn [snd]. cbv zeta.
    rewrite decide_True by (by rewrite !list_to_set_nil, !size_empty).
    cbn [authorization]. apply lookup_delete_eq. }
  cbv zeta. split; [done|]. split; [by apply not_elem_of_dom|].
  split; [|exact Hread].
  unfold store. rewrite dom_fmap_L. by apply not_elem_of_dom.
Qed.

(** On a well-formed model, [set_authorization] replaces the entry of the
    component, or removes it if both sets are empty, and touches no other
    entry nor the mode. *)
Lemma set_authorization_store component us ps m :
  well_formed m →
  well_formed (set_authorization component us ps m).2
  ∧ _auto_accept_request (set_authorization component us ps m).2
    = _auto_accept_request m
  ∧ store (set_authorization component us ps m).2
    = if decide (size (list_to_set us : gset string) = 0
                 ∧ size (list_to_set ps : gset string) = 0)
      then delete component (store m)
      else <[component := {| authorized_users := list_to_set us;
                             non_authorized_cscs := list_to_set ps |}]> (store m).
Proof.
  intros Hwf.
  destruct (set_authorization_run component us ps m)
    as (l & m1 & Hl & Hwf1 & Hoff & Hmode & ->).
  specialize (Hwf1 Hwf). cbn [snd]. cbv zeta.
  set (D := {| authorized_users := list_to_set us;
               non_authorized_cscs := list_to_set ps |}).
  pose proof (well_formed_write l D m1 Hwf1) as Hwf2.
  pose proof (store_write_stored component l D m1 Hwf1 Hl) as Hstore2.
  case_decide as Hempty.
  - split; [|split; [done|]].
    + destruct Hwf2 as [Halloc Hinj]. split; cbn [heap authorization].
      * intros c l' [_ Hc]%lookup_delete_Some. eauto.
      * intros c1 c2 l' [_ H1]%lookup_delete_Some [_ H2]%lookup_delete_Some. eauto.
    + apply map_eq. intros c.
      transitivity (delete component (store (write l D m1)) !! c).
      { unfold store. cbn [authorization]. rewrite fmap_delete. reflexivity. }
      rewrite Hstore2, delete_insert_eq.
      destruct (decide (c = component)) as [->|Hne].
      * by rewrite !lookup_delete_eq.
      * rewrite !lookup_delete_ne by done. by apply Hoff.
  - split; [done|]. split; [done|]. rewrite Hstore2.
    apply map_eq. intros c. rewrite !lookup_insert.
    case_decide; [done|]. by apply Hoff.
Qed.

(** The presence invariant is kept by the operations that do not go through
    [get_authorization]. *)
Lemma presence_invariant_init : presence_invariant init.
Proof. intros c d. unfold store, init; simpl. by rewrite fmap_empty, lookup_empty. Qed.

Lemma presence_invariant_set_authorization component us ps m :
  well_formed m → presence_invariant m →
  presence_invariant (set_authorization component us ps m).2.
Proof.
  intros Hwf Hinv c d.
  destruct (set_authorization_store component us ps m Hwf) as (_ & _ & ->).
  case_decide as Hempty.
  - intros [_ Hc]%lookup_delete_Some. by apply (Hinv c).
  - intros [[_ <-]|[_ Hc]]%lookup_insert_Some; [|by apply (Hinv c)].
    cbn [authorized_users non_authorized_cscs].
    destruct (decide (size (list_to_set us : gset string) = 0)) as [Hu|Hu].
    + right. intros Hp. apply Hempty. split; [done|]. by rewrite Hp, size_empty.
    + left. intros Hp. apply Hu. by rewrite Hp, size_empty.
Qed.

Lemma presence_invariant_get_component_authorization component m :
  presence_invariant m →
  presence_invariant (get_component_authorization component m).2.
Proof.
  intros Hinv c d.
  rewrite (proj1 (get_component_authorization_store component m)). apply Hinv.
Qed.

Lemma presence_invariant_set_authorization_mode auto m :
  presence_invariant m →
  presence_invariant (set_authorization_mode auto m).2.
Proof. intros Hinv c d. apply Hinv. Qed.

(** *** [process_request] *)

(** C6: in manual mode [process_request] raises [NotImplementedError]
    before it yields anything, and leaves the model, hence the store, as it
    was. *)
Theorem process_request_manual request m :
  _auto_accept_request m = false →
  process_request request m
  = (([], Raise (NotImplementedError "Non-automatic mode not implemented yet.")), m).
Proof. intros Hmode. unfold process_request. by rewrite Hmode. Qed.

Lemma process_request_manual_witness :
  _auto_accept_request manual = false ∧
  process_request
    {| data.cscsToChange := "Test"; data.authorizedUsers := "+u2";
       data.nonAuthorizedCSCs := "" |} manual
  = (([], Raise (NotImplementedError "Non-automatic mode not implemented yet.")), manual).
Proof. split; [reflexivity|]. apply process_request_manual. reflexivity. Defined.

(** With two expressions that parse, the loop of [process_request] yields
    one item per component, in the order of the components, and ends
    normally, in the mode it started in. *)
Lemma process_components_run components request au ru ap rp m :
  parse_auth_request (data.authorizedUsers request) = Ok (au, ru) →
  parse_auth_request (data.nonAuthorizedCSCs request) = Ok (ap, rp) →
  (process_components components request m).1.2 = Ok tt
  ∧ component <$> (process_components components request m).1.1 = components
  ∧ _auto_accept_request (process_components components request m).2
    = _auto_accept_request m.
Proof.
  intros Hu Hp. revert m.
  induction components as [|c cs IH]; intros m; [done|].
  cbn [process_components].
  rewrite (get_authorization_run _ _ _ _ _ _ _ _ Hu Hp).
  match goal with |- context [process_components cs request ?m1] =>
    specialize (IH m1); destruct (process_components cs request m1) as [[items ending] m2]
  end.
  cbn [fst snd] in *. destruct IH as (-> & Hitems & ->).
  split; [done|]. split; [|done]. by rewrite fmap_cons, Hitems.
Qed.

Lemma process_request_run request au ru ap rp m :
  _auto_accept_request m = true →
  parse_auth_request (data.authorizedUsers request) = Ok (au, ru) →
  parse_auth_request (data.nonAuthorizedCSCs request) = Ok (ap, rp) →
  (process_request request m).1.2 = Ok tt
  ∧ component <$> (process_request request m).1.1
    = str.split comma (data.cscsToChange request)
  ∧ List.length (process_request request m).1.1
    = List.length (str.split comma (data.cscsToChange request)).
Proof.
  intros Hmode Hu Hp. unfold process_request. rewrite Hmode. cbn [negb].
  destruct (process_components_run (str.split comma (data.cscsToChange request))
              request au ru ap rp m Hu Hp) as (He & Hc & _).
  split; [done|]. split; [done|].
  by rewrite <- Hc at 2; rewrite length_fmap.
Qed.

Lemma apply_request_idemp d users cscs :
  apply_request (apply_request d users cscs) users cscs = apply_request d users cscs.
Proof.
  unfold apply_request; cbn [authorized_users non_authorized_cscs].
  f_equal; apply set_eq; intros x; set_solver.
Qed.


(** C10: in automatic mode, a request whose [cscsToChange] is the empty
    string has the single target [""]; when that name is not a key of the
    store and both expressions parse, exactly one item is yielded, for the
    component [""], holding the additions of each expression without its
    removals (the diff against two empty sets), and the generator ends
    normally. *)
Theorem process_request_empty_target ue pe au ru ap rp m :
  _auto_accept_request m = true →
  authorization m !! "" = None →
  parse_auth_request ue = Ok (au, ru) →
  parse_auth_request pe = Ok (ap, rp) →
  str.split comma "" = [""] ∧
  (process_request
     {| data.cscsToChange := ""; data.authorizedUsers := ue;
        data.nonAuthorizedCSCs := pe |} m).1
  = ([make_set_auth_list ""
        {| authorized_users := (∅ ∪ au) ∖ ru;
           non_authorized_cscs := (∅ ∪ ap) ∖ rp |}], Ok tt).
Proof.
  intros Hmode Habsent Hu Hp. split; [done|].
  unfold process_request. rewrite Hmode. cbn [negb data.cscsToChange str.split].
  cbn [process_components data.authorizedUsers data.nonAuthorizedCSCs].
  rewrite (get_authorization_run _ _ _ _ _ _ _ _ Hu Hp).
  cbn [fst]. rewrite deref_write_eq, deref_current.
  unfold store. rewrite lookup_fmap, Habsent. done.
Qed.

Lemma process_request_empty_target_witness :
  _auto_accept_request test_u1 = true
  ∧ authorization test_u1 !! "" = None
  ∧ parse_auth_request "+a,-b" = Ok ({[ "a" ]}, {[ "b" ]})
  ∧ parse_auth_request "+x" = Ok ({[ "x" ]}, ∅)
  ∧ (process_request
       {| data.cscsToChange := ""; data.authorizedUsers := "+a,-b";
          data.nonAuthorizedCSCs := "+x" |} test_u1).1
    = ([{| component := "";
           auth_list := {| authorizedUsers := "a"; nonAuthorizedCSCs := "x" |} |}],
       Ok tt).
Proof.
  assert (Hu : parse_auth_request "+a,-b" = Ok ({[ "a" ]}, {[ "b" ]}))
    by (vm_compute; reflexivity).
  assert (Hp : parse_auth_request "+x" = Ok ({[ "x" ]}, ∅))
    by (vm_compute; reflexivity).
  assert (Habsent : authorization test_u1 !! "" = None)
    by (vm_compute; reflexivity).
  do 4 (split; [done|]).
  destruct (process_request_empty_target _ _ _ _ _ _ test_u1 eq_refl Habsent Hu Hp)
    as [_ ->].
  vm_compute. reflexivity.
Defined.

(** *** The stored dictionary is updated in place *)

Lemma store_test_u1 :
  store test_u1
  = {[ "Test" := {| authorized_users := {[ "u1" ]}; non_authorized_cscs := ∅ |} ]}.
Proof. vm_compute. reflexivity. Qed.

(** C1: on the store left by [set_authorization("Test", {"u1"}, {})], the
    call [get_authorization("Test", "+u2,-u1", "")] returns
    [({"u2"}, {})], as claimed, but it has written that result into the
    stored dictionary: [get_component_authorization("Test")] then returns
    [({"u2"}, {})], not [({"u1"}, {})], and the store has changed. *)
Theorem get_authorization_updates_store :
  let after := (read_authorization "Test" "+u2,-u1" "" test_u1).2 in
  (read_component_authorization "Test" test_u1).1
  = Ok {| authorized_users := {[ "u1" ]}; non_authorized_cscs := ∅ |}
  ∧ (read_authorization "Test" "+u2,-u1" "" test_u1).1
    = Ok {| authorized_users := {[ "u2" ]}; non_authorized_cscs := ∅ |}
  ∧ (read_component_authorization "Test" after).1
    = Ok {| authorized_users := {[ "u2" ]}; non_authorized_cscs := ∅ |}
  ∧ store after ≠ store test_u1.
Proof.
  cbn zeta. repeat split; try (vm_compute; reflexivity).
  intros Heq. apply (f_equal (λ s, authorized_users <$> s !! "Test")) in Heq.
  apply (f_equal (λ o, bool_decide (o = Some ({[ "u1" ]} : gset string)))) in Heq.
  vm_compute in Heq. discriminate.
Qed.

(** C2: the presence invariant holds on the store left by
    [set_authorization("Test", {"u1"}, {})], and
    [get_authorization("Test", "-u1", "")] breaks it: the component stays a
    key of the store with both of its sets empty. *)
Theorem get_authorization_breaks_presence_invariant :
  let after := (get_authorization "Test" "-u1" "" test_u1).2 in
  presence_invariant test_u1
  ∧ store after !! "Test" = Some empty_component_authorization
  ∧ ¬ presence_invariant after.
Proof.
  cbn zeta. split; [|split].
  - intros c d. rewrite store_test_u1.
    intros [_ <-]%lookup_singleton_Some. left. simpl.
    intros Hempty. apply (f_equal size) in Hempty. vm_compute in Hempty. discriminate.
  - vm_compute. reflexivity.
  - intros Hinv.
    destruct (Hinv "Test" empty_component_authorization eq_refl) as [H|H];
      by apply H.
Qed.

(** C5: in automatic mode, on the store left by
    [set_authorization("Test", {"u1"}, {})], the request for the single
    target ["Test"] with the expressions ["+u2"] and [""] yields one item,
    for ["Test"], and ends normally; but the store has been written to: the
    authorized users of ["Test"] are [{"u1", "u2"}] afterwards. *)
Theorem process_request_updates_store :
  let request := {| data.cscsToChange := "Test"; data.authorizedUsers := "+u2";
                    data.nonAuthorizedCSCs := "" |} in
  _auto_accept_request test_u1 = true
  ∧ (process_request request test_u1).1
    = ([make_set_auth_list "Test"
          {| authorized_users := {[ "u1"; "u2" ]}; non_authorized_cscs := ∅ |}], Ok tt)
  ∧ store test_u1 !! "Test"
    = Some {| authorized_users := {[ "u1" ]}; non_authorized_cscs := ∅ |}
  ∧ store (process_request request test_u1).2 !! "Test"
    = Some {| authorized_users := {[ "u1"; "u2" ]}; non_authorized_cscs := ∅ |}
  ∧ store (process_request request test_u1).2 ≠ store test_u1.
Proof.
  cbn zeta. repeat split; try (vm_compute; reflexivity).
  intros Heq. apply (f_equal (λ s, authorized_users <$> s !! "Test")) in Heq.
  apply (f_equal (λ o, bool_decide (o = Some ({[ "u1" ]} : gset string)))) in Heq.
  vm_compute in Heq. discriminate.
Qed.

End model.

(** * Further properties *)

(** ** [str.split] and [str.join] *)

Section strings.
Import utils text.

Lemma split_cons_inv sep s : ∃ tok toks, str.split sep s = tok :: toks.
Proof.
  destruct (str.split sep s) as [|tok toks] eqn:Hs; [|eauto].
  by apply split_not_nil in Hs.
Qed.

Lemma split_count sep s : List.length (str.split sep s) = S (count sep s).
Proof.
  induction s as [|c s IH]; [done|]. cbn [str.split count].
  case_decide; cbn [List.length]; [by rewrite IH|].
  destruct (str.split sep s); cbn [List.length] in *; lia.
Qed.

Lemma join_cons sep tok tok' toks :
  str.join sep (tok :: tok' :: toks) = tok +:+ sep +:+ str.join sep (tok' :: toks).
Proof. reflexivity. Qed.

Lemma join_split sep s : str.join (String sep "") (str.split sep s) = s.
Proof.
  induction s as [|c s IH]; [done|]. cbn [str.split].
  destruct (split_cons_inv sep s) as (tok & toks & Hs). rewrite Hs in *.
  case_decide as Hc.
  - subst c. rewrite join_cons, IH. reflexivity.
  - destruct toks as [|tok' toks].
    + cbn [str.join] in *. by rewrite IH.
    + rewrite join_cons in *.
      change (String c (tok +:+ String sep "" +:+ str.join (String sep "") (tok' :: toks))
              = String c s).
      by rewrite IH.
Qed.

Lemma split_no_sep sep s : count sep s = 0 → str.split sep s = [s].
Proof.
  induction s as [|c s IH]; [done|]. cbn [count str.split].
  case_decide; [done|]. intros Hs. by rewrite IH.
Qed.

Lemma split_app_sep sep s1 s2 :
  count sep s1 = 0 →
  str.split sep (s1 +:+ String sep s2) = s1 :: str.split sep s2.
Proof.
  induction s1 as [|c s1 IH]; simpl.
  - intros _. by rewrite decide_True.
  - case_decide; [done|]. intros Hs. by rewrite IH.
Qed.

Lemma split_join sep toks :
  toks ≠ [] → Forall (λ tok, count sep tok = 0) toks →
  str.split sep (str.join (String sep "") toks) = toks.
Proof.
  intros Hne Hall. induction Hall as [|tok toks Htok Hall IH]; [done|].
  destruct toks as [|tok' toks]; [by apply split_no_sep|].
  rewrite join_cons.
  change (tok +:+ String sep "" +:+ str.join (String sep "") (tok' :: toks))
    with (tok +:+ String sep (str.join (String sep "") (tok' :: toks))).
  rewrite split_app_sep by done. f_equal. by apply IH.
Qed.

Lemma split_tokens_no_sep sep s tok :
  tok ∈ str.split sep s → count sep tok = 0.
Proof.
  revert tok. induction s as [|c s IH]; intros tok; cbn [str.split].
  - by intros ->%list_elem_of_singleton.
  - destruct (split_cons_inv sep s) as (t & ts & Hs). rewrite Hs in *.
    case_decide as Hc.
    + intros [->|Hin]%elem_of_cons; [done|]. by apply IH.
    + intros [->|Hin]%elem_of_cons.
      * cbn [count]. rewrite decide_False by done. apply IH, list_elem_of_here.
      * by apply IH, list_elem_of_further.
Qed.

Lemma split_snoc_sep sep s :
  str.split sep (s +:+ String sep "") = str.split sep s ++ [""].
Proof.
  induction s as [|c s IH]; simpl.
  - by rewrite decide_True.
  - rewrite IH. case_decide; [done|].
    by destruct (split_cons_inv sep s) as (t & ts & ->).
Qed.

End strings.

(** ** More on the request parser *)

Section parse_results.
Import utils text.

Lemma elem_of_stripped sign item request :
  item ∈ (set_map str.drop_first
            (filter (λ tok, str.startswith sign tok = true) (tokens request)) : gset string)
  ↔ String sign item ∈ str.split comma request.
Proof.
  rewrite elem_of_map. unfold tokens. split.
  - intros (tok & -> & [Hs Hin]%elem_of_filter).
    apply startswith_spec in Hs. rewrite <- Hs. by apply elem_of_list_to_set in Hin.
  - intros Hin. exists (String sign item). split; [done|].
    apply elem_of_filter. split; [|by apply elem_of_list_to_set].
    simpl. by apply bool_decide_eq_true.
Qed.

Lemma parse_ok_inv request to_add to_remove :
  parse_auth_request request = Ok (to_add, to_remove) →
  (∀ item, item ∈ to_add ↔ String plus_sign item ∈ str.split comma request)
  ∧ (∀ item, item ∈ to_remove ↔ String minus_sign item ∈ str.split comma request).
Proof.
  destruct (decide (request = "")) as [->|Hne].
  - intros [= <- <-]. split; intros item; split; try done;
      by intros [=]%list_elem_of_singleton.
  - rewrite parse_unfold by done. case_decide; [done|]. intros [= <- <-].
    split; intros item; apply elem_of_stripped.
Qed.

(** X1: on success the two sets are exactly the items of the tokens signed
    [+] and of those signed [-], and no item is in both. *)
Theorem parse_ok_sets request to_add to_remove :
  parse_auth_request request = Ok (to_add, to_remove) →
  to_add ## to_remove
  ∧ (∀ item, item ∈ to_add ↔ String plus_sign item ∈ str.split comma request)
  ∧ (∀ item, item ∈ to_remove ↔ String minus_sign item ∈ str.split comma request).
Proof.
  intros Hok. destruct (parse_ok_inv _ _ _ Hok) as [Hadd Hrem].
  split; [|done]. intros item Ha%Hadd Hr%Hrem.
  assert (Hraise : is_raise (parse_auth_request request)); [|by rewrite Hok in Hraise].
  apply parse_raises_iff. split.
  - by apply (tokens_nonempty_request _ (String plus_sign item)); [apply elem_of_list_to_set|].
  - right. exists item. split; by apply elem_of_list_to_set.
Qed.

Lemma parse_ok_sets_witness :
  parse_auth_request "+a,-b,+c" = Ok ({[ "a"; "c" ]}, {[ "b" ]})
  ∧ ({[ "a"; "c" ]} : gset string) ## {[ "b" ]}.
Proof.
  assert (Hok : parse_auth_request "+a,-b,+c" = Ok ({[ "a"; "c" ]}, {[ "b" ]}))
    by (vm_compute; reflexivity).
  split; [exact Hok|]. exact (proj1 (parse_ok_sets _ _ _ Hok)).
Defined.

(** X2: a request with an empty token fails and lists the empty token; a
    trailing comma is enough, whatever comes before it. *)
Theorem parse_trailing_comma request :
  ∃ bad_entries,
    parse_auth_request (request +:+ ",")
    = Raise (RuntimeError (request +:+ ",") bad_entries)
    ∧ "" ∈ bad_entries.
Proof.
  assert (Hin : "" ∈ tokens (request +:+ ",")).
  { unfold tokens. apply elem_of_list_to_set.
    rewrite (split_snoc_sep comma). apply elem_of_app. right. apply list_elem_of_here. }
  assert (Hraise : is_raise (parse_auth_request (request +:+ ","))).
  { apply parse_raises_iff. split; [by destruct request|].
    left. by exists "". }
  destruct (parse_auth_request (request +:+ ",")) as [|e] eqn:Hparse; [done|].
  apply parse_raise_inv in Hparse as [_ ->]. eexists. split; [done|].
  by apply elem_of_filter.
Qed.

Lemma parse_ok_names_comma_free request to_add to_remove :
  parse_auth_request request = Ok (to_add, to_remove) →
  ∀ item, item ∈ to_add ∪ to_remove → comma_free item.
Proof.
  intros [Hadd Hrem]%parse_ok_inv item [Hin%Hadd|Hin%Hrem]%elem_of_union;
    apply (split_tokens_no_sep comma) in Hin; unfold comma_free;
    cbn [count] in Hin; by rewrite decide_False in Hin.
Qed.

(** X3: the names that a successful parse returns hold no comma. *)
Theorem parse_ok_comma_free request to_add to_remove :
  parse_auth_request request = Ok (to_add, to_remove) →
  ∀ item, item ∈ to_add ∪ to_remove → comma_free item.
Proof. apply parse_ok_names_comma_free. Qed.

Lemma parse_ok_comma_free_witness :
  parse_auth_request "+a,-b,+c" = Ok ({[ "a"; "c" ]}, {[ "b" ]})
  ∧ comma_free "c".
Proof.
  assert (Hok : parse_auth_request "+a,-b,+c" = Ok ({[ "a"; "c" ]}, {[ "b" ]}))
    by (vm_compute; reflexivity).
  split; [exact Hok|].
  apply (parse_ok_comma_free _ _ _ Hok "c"). apply elem_of_union_l.
  apply elem_of_union_r, elem_of_singleton. reflexivity.
Defined.

End parse_results.

(** ** More on the authorization model *)

Section model_effects.
Import utils text authorization_model.

Implicit Types (m : AuthorizationModel) (l : positive) (d : ComponentAuthorization).

Lemma well_formed_test_u1 : well_formed test_u1.
Proof. apply set_authorization_store, well_formed_init. Qed.

Lemma store_new_dict m : store (new_dict empty_component_authorization m).2 = store m.
Proof. apply (proj1 (get_component_authorization_store "" m)). Qed.

(** [get_authorization] with an expression that does not parse: the
    exception of the first such expression, and only a new dictionary that
    nothing refers to. *)
Lemma get_authorization_raise_run component ue pe e m :
  parse_auth_request ue = Raise e
  ∨ (∃ users, parse_auth_request ue = Ok users ∧ parse_auth_request pe = Raise e) →
  get_authorization component ue pe m
  = (Raise e, (new_dict empty_component_authorization m).2).
Proof.
  intros Herr. unfold get_authorization, bind.
  rewrite get_component_authorization_run. unfold lift.
  destruct Herr as [->|([au ru] & -> & ->)]; reflexivity.
Qed.

(** X4: when one of the two expressions does not parse, [get_authorization]
    raises the error of the first expression that fails, and the store and
    the mode are what they were. *)
Theorem get_authorization_invalid component ue pe e m :
  parse_auth_request ue = Raise e
  ∨ (∃ users, parse_auth_request ue = Ok users ∧ parse_auth_request pe = Raise e) →
  (get_authorization component ue pe m).1 = Raise e
  ∧ store (get_authorization component ue pe m).2 = store m
  ∧ _auto_accept_request (get_authorization component ue pe m).2
    = _auto_accept_request m.
Proof.
  intros Herr. rewrite (get_authorization_raise_run _ _ _ _ _ Herr).
  split; [done|]. split; [apply store_new_dict|done].
Qed.

Lemma get_authorization_invalid_witness :
  (get_authorization "Test" "+u2" "MTRotator" test_u1).1
  = Raise (RuntimeError "MTRotator" {[ "MTRotator" ]})
  ∧ store (get_authorization "Test" "+u2" "MTRotator" test_u1).2 = store test_u1.
Proof.
  assert (Hu : parse_auth_request "+u2" = Ok ({[ "u2" ]}, ∅)) by (vm_compute; reflexivity).
  assert (Hp : parse_auth_request "MTRotator"
               = Raise (RuntimeError "MTRotator" {[ "MTRotator" ]}))
    by (vm_compute; reflexivity).
  destruct (get_authorization_invalid "Test" "+u2" "MTRotator" _ test_u1
              (or_intror (ex_intro _ _ (conj Hu Hp)))) as (H1 & H2 & _).
  by split.
Defined.

(** X5: in automatic mode, when one of the two expressions does not parse,
    [process_request] raises that error before it yields anything, whatever
    the targets, and the store is what it was. *)
Theorem process_request_invalid request e m :
  _auto_accept_request m = true →
  parse_auth_request (data.authorizedUsers request) = Raise e
  ∨ (∃ users, parse_auth_request (data.authorizedUsers request) = Ok users
              ∧ parse_auth_request (data.nonAuthorizedCSCs request) = Raise e) →
  (process_request request m).1 = ([], Raise e)
  ∧ store (process_request request m).2 = store m.
Proof.
  intros Hmode Herr. unfold process_request. rewrite Hmode. cbn [negb].
  destruct (split_cons_inv comma (data.cscsToChange request)) as (c & cs & ->).
  cbn [process_components]. rewrite (get_authorization_raise_run _ _ _ _ _ Herr).
  split; [done|]. apply store_new_dict.
Qed.

Lemma process_request_invalid_witness :
  (process_request
     {| data.cscsToChange := "Test,Script:1"; data.authorizedUsers := "u2";
        data.nonAuthorizedCSCs := "" |} test_u1).1
  = ([], Raise (RuntimeError "u2" {[ "u2" ]})).
Proof.
  assert (Hu : parse_auth_request "u2" = Raise (RuntimeError "u2" {[ "u2" ]}))
    by (vm_compute; reflexivity).
  exact (proj1 (process_request_invalid
                  {| data.cscsToChange := "Test,Script:1"; data.authorizedUsers := "u2";
                     data.nonAuthorizedCSCs := "" |} _ test_u1 eq_refl (or_introl Hu))).
Defined.

(** X6: in automatic mode and for two expressions that parse,
    [process_request] yields one item more than [cscsToChange] has commas:
    never none, and an empty name between two commas is a target like any
    other. *)
Theorem process_request_count request users cscs m :
  _auto_accept_request m = true →
  parse_auth_request (data.authorizedUsers request) = Ok users →
  parse_auth_request (data.nonAuthorizedCSCs request) = Ok cscs →
  List.length (process_request request m).1.1
  = S (count comma (data.cscsToChange request))
  ∧ (process_request request m).1.2 = Ok tt.
Proof.
  intros Hmode Hu Hp. destruct users as [au ru], cscs as [ap rp].
  destruct (process_request_run request au ru ap rp m Hmode Hu Hp) as (He & _ & Hlen).
  split; [|done]. by rewrite Hlen, split_count.
Qed.

Lemma process_request_count_witness :
  List.length
    (process_request
       {| data.cscsToChange := "Test,,Script:1"; data.authorizedUsers := "+u2";
          data.nonAuthorizedCSCs := "" |} test_u1).1.1 = 3.
Proof.
  assert (Hu : parse_auth_request "+u2" = Ok ({[ "u2" ]}, ∅)) by (vm_compute; reflexivity).
  assert (Hp : parse_auth_request "" = Ok (∅, ∅)) by reflexivity.
  exact (proj1 (process_request_count
                  {| data.cscsToChange := "Test,,Script:1"; data.authorizedUsers := "+u2";
                     data.nonAuthorizedCSCs := "" |} _ _ test_u1 eq_refl Hu Hp)).
Defined.

(** X7: on a well-formed model and for two expressions that parse,
    [get_authorization] leaves the store as it was when the component is
    not a key of it, and otherwise replaces the entry of the component, and
    no other, by the diff it returns. *)
Theorem get_authorization_store_effect component ue pe users cscs m :
  well_formed m →
  parse_auth_request ue = Ok users →
  parse_auth_request pe = Ok cscs →
  store (get_authorization component ue pe m).2
  = match store m !! component with
    | Some d => <[component := apply_request d users cscs]> (store m)
    | None => store m
    end.
Proof. intros Hwf Hu Hp. by apply get_authorization_store. Qed.

Lemma get_authorization_store_effect_witness :
  store (get_authorization "Script" "+u2" "" test_u1).2 = store test_u1.
Proof.
  assert (Hu : parse_auth_request "+u2" = Ok ({[ "u2" ]}, ∅)) by (vm_compute; reflexivity).
  assert (Hp : parse_auth_request "" = Ok (∅, ∅)) by reflexivity.
  rewrite (get_authorization_store_effect "Script" "+u2" "" _ _ test_u1
             well_formed_test_u1 Hu Hp).
  vm_compute. reflexivity.
Defined.

(** X8: on a well-formed model and for two expressions that parse, a second
    identical call of [get_authorization] returns what the first returned
    and leaves the store as the first left it. *)
Theorem get_authorization_twice component ue pe users cscs m :
  well_formed m →
  parse_auth_request ue = Ok users →
  parse_auth_request pe = Ok cscs →
  let m1 := (get_authorization component ue pe m).2 in
  (read_authorization component ue pe m1).1 = (read_authorization component ue pe m).1
  ∧ store (get_authorization component ue pe m1).2 = store m1.
Proof.
  intros Hwf Hu Hp m1.
  destruct (get_authorization_store component _ _ _ _ m Hwf Hu Hp) as [Hwf1 Hstore1].
  fold m1 in Hwf1, Hstore1.
  destruct (get_authorization_store component _ _ _ _ m1 Hwf1 Hu Hp) as [_ Hstore2].
  destruct users as [au ru] eqn:Eu, cscs as [ap rp] eqn:Ec.
  rewrite !(read_authorization_run _ _ _ _ _ _ _ _ Hu Hp).
  rewrite Hstore2, Hstore1. clear Hstore2.
  destruct (store m !! component) as [d|] eqn:Hc.
  - rewrite lookup_insert_eq. cbn [default]. split.
    + f_equal. apply (apply_request_idemp d (au, ru) (ap, rp)).
    + by rewrite apply_request_idemp, insert_insert_eq.
  - by rewrite Hc.
Qed.

Lemma get_authorization_twice_witness :
  (read_authorization "Test" "+u2,-u1" ""
     (get_authorization "Test" "+u2,-u1" "" test_u1).2).1
  = (read_authorization "Test" "+u2,-u1" "" test_u1).1.
Proof.
  assert (Hu : parse_auth_request "+u2,-u1" = Ok ({[ "u2" ]}, {[ "u1" ]}))
    by (vm_compute; reflexivity).
  assert (Hp : parse_auth_request "" = Ok (∅, ∅)) by reflexivity.
  exact (proj1 (get_authorization_twice "Test" "+u2,-u1" "" _ _ test_u1
                  well_formed_test_u1 Hu Hp)).
Defined.

End model_effects.

(** ** How commits compose *)

Section commits.
Import utils text authorization_model.

Implicit Types (m : AuthorizationModel).

(** X9: on a well-formed model [set_authorization] overwrites the entry of
    its component with the two sets, or removes it when both are empty; the
    other entries and the mode stay as they were, and the model stays well
    formed. *)
Theorem set_authorization_store_effect component us ps m :
  well_formed m →
  well_formed (set_authorization component us ps m).2
  ∧ _auto_accept_request (set_authorization component us ps m).2
    = _auto_accept_request m
  ∧ (∀ c, c ≠ component →
       store (set_authorization component us ps m).2 !! c = store m !! c)
  ∧ store (set_authorization component us ps m).2 !! component
    = if decide ((list_to_set us : gset string) = ∅ ∧ (list_to_set ps : gset string) = ∅)
      then None
      else Some {| authorized_users := list_to_set us;
                   non_authorized_cscs := list_to_set ps |}.
Proof.
  intros Hwf.
  destruct (set_authorization_store component us ps m Hwf) as (Hwf' & Hmode & ->).
  split; [done|]. split; [done|].
  destruct (decide (size (list_to_set us : gset string) = 0
                    ∧ size (list_to_set ps : gset string) = 0)) as [[Hu Hp]|Hne].
  - apply size_empty_inv, leibniz_equiv in Hu, Hp. split.
    + intros c Hc. by rewrite lookup_delete_ne.
    + rewrite lookup_delete_eq, decide_True; done.
  - split.
    + intros c Hc. by rewrite lookup_insert_ne.
    + rewrite lookup_insert_eq, decide_False; [done|].
      intros [Hu Hp]. apply Hne. by rewrite Hu, Hp, size_empty.
Qed.

Lemma set_authorization_store_effect_witness :
  store (set_authorization "Script" ["u2"] [] test_u1).2 !! "Test"
  = store test_u1 !! "Test".
Proof.
  apply (set_authorization_store_effect "Script" ["u2"] [] test_u1 well_formed_test_u1).
  vm_compute. discriminate.
Defined.

(** X10: on a well-formed model the last [set_authorization] of a component
    wins: the store after two of them is the store after the second one
    alone. *)
Theorem set_authorization_last_wins component us1 ps1 us2 ps2 m :
  well_formed m →
  store (set_authorization component us2 ps2
           (set_authorization component us1 ps1 m).2).2
  = store (set_authorization component us2 ps2 m).2.
Proof.
  intros Hwf.
  destruct (set_authorization_store component us1 ps1 m Hwf) as (Hwf1 & _ & Hs1).
  destruct (set_authorization_store component us2 ps2 _ Hwf1) as (_ & _ & ->).
  destruct (set_authorization_store component us2 ps2 m Hwf) as (_ & _ & ->).
  rewrite Hs1.
  repeat case_decide;
    by rewrite ?delete_delete_eq, ?delete_insert_eq, ?insert_delete_eq, ?insert_insert_eq.
Qed.

Lemma set_authorization_last_wins_witness :
  store (set_authorization "Test" ["u2"] ["MTRotator"]
           (set_authorization "Test" ["u3"] [] test_u1).2).2
  = store (set_authorization "Test" ["u2"] ["MTRotator"] test_u1).2.
Proof. apply set_authorization_last_wins, well_formed_test_u1. Defined.

(** X11: on a well-formed model two [set_authorization] of different
    components can be swapped: the store is the same. *)
Theorem set_authorization_commute c1 us1 ps1 c2 us2 ps2 m :
  well_formed m → c1 ≠ c2 →
  store (set_authorization c1 us1 ps1 (set_authorization c2 us2 ps2 m).2).2
  = store (set_authorization c2 us2 ps2 (set_authorization c1 us1 ps1 m).2).2.
Proof.
  intros Hwf Hne.
  destruct (set_authorization_store c1 us1 ps1 m Hwf) as (Hwf1 & _ & Hs1).
  destruct (set_authorization_store c2 us2 ps2 m Hwf) as (Hwf2 & _ & Hs2).
  destruct (set_authorization_store c1 us1 ps1 _ Hwf2) as (_ & _ & ->).
  destruct (set_authorization_store c2 us2 ps2 _ Hwf1) as (_ & _ & ->).
  rewrite Hs1, Hs2.
  repeat case_decide;
    [apply delete_delete | by rewrite delete_insert_ne ..| by apply insert_insert_ne].
Qed.

Lemma set_authorization_commute_witness :
  store (set_authorization "Test" ["u2"] [] (set_authorization "Script" [] ["MTRotator"]
                                               test_u1).2).2
  = store (set_authorization "Script" [] ["MTRotator"]
             (set_authorization "Test" ["u2"] [] test_u1).2).2.
Proof.
  apply set_authorization_commute; [apply well_formed_test_u1|].
  vm_compute. discriminate.
Defined.

(** X12: [set_authorization_mode] changes the mode and nothing in the
    store, and the mode alone decides whether [process_request] runs: for
    two expressions that parse, it ends normally after
    [set_authorization_mode(True)] and raises [NotImplementedError], having
    yielded nothing, after [set_authorization_mode(False)], whatever the
    mode was before. *)
Theorem set_authorization_mode_gates auto request users cscs m :
  parse_auth_request (data.authorizedUsers request) = Ok users →
  parse_auth_request (data.nonAuthorizedCSCs request) = Ok cscs →
  let m' := (set_authorization_mode auto m).2 in
  store m' = store m
  ∧ if auto
    then (process_request request m').1.2 = Ok tt
    else (process_request request m').1
         = ([], Raise (NotImplementedError "Non-automatic mode not implemented yet.")).
Proof.
  intros Hu Hp m'. split; [done|]. destruct users as [au ru], cscs as [ap rp].
  destruct auto; [|done].
  by apply (process_request_run request au ru ap rp m').
Qed.

Lemma set_authorization_mode_gates_witness :
  (process_request
     {| data.cscsToChange := "Test"; data.authorizedUsers := "+u2";
        data.nonAuthorizedCSCs := "" |}
     (set_authorization_mode true manual).2).1.2 = Ok tt.
Proof.
  assert (Hu : parse_auth_request "+u2" = Ok ({[ "u2" ]}, ∅)) by (vm_compute; reflexivity).
  assert (Hp : parse_auth_request "" = Ok (∅, ∅)) by reflexivity.
  exact (proj2 (set_authorization_mode_gates true
                  {| data.cscsToChange := "Test"; data.authorizedUsers := "+u2";
                     data.nonAuthorizedCSCs := "" |} _ _ manual Hu Hp)).
Defined.

End commits.

(** ** The event handler of the CSC *)

Section handler.
Import utils text authorization_model csc.

Implicit Types (m : AuthorizationModel) (data : authList).

Lemma names_spec field name :
  name ∈ names field ↔ name ∈ str.split comma field ∧ name ≠ "".
Proof.
  unfold names. rewrite elem_of_difference, elem_of_list_to_set, elem_of_singleton.
  done.
Qed.

Lemma names_empty_field : names "" = ∅.
Proof. apply set_eq. intros name. rewrite names_spec. set_solver. Qed.

Lemma handle_auth_list_read data component m :
  (read_component_authorization (component_name data component)
     (_handle_auth_list_for_component data component m).2).1
  = Ok {| authorized_users := names (csc.authorizedUsers data);
          non_authorized_cscs := names (csc.nonAuthorizedCSCs data) |}.
Proof.
  unfold _handle_auth_list_for_component.
  rewrite set_authorization_read. by rewrite !list_to_set_elements_L.
Qed.

(** X13: the handler never raises, and right after it
    [get_component_authorization], for the name under which the sample was
    filed, returns the names of the two fields of the sample: their tokens
    between commas, without the empty one. *)
Theorem handle_auth_list_then_get data component m :
  (_handle_auth_list_for_component data component m).1 = Ok tt
  ∧ (read_component_authorization (component_name data component)
       (_handle_auth_list_for_component data component m).2).1
    = Ok {| authorized_users := names (csc.authorizedUsers data);
            non_authorized_cscs := names (csc.nonAuthorizedCSCs data) |}.
Proof.
  split; [|apply handle_auth_list_read].
  unfold _handle_auth_list_for_component.
  by destruct (set_authorization_run (component_name data component)
                 (elements (names (csc.authorizedUsers data)))
                 (elements (names (csc.nonAuthorizedCSCs data))) m)
    as (l & m1 & _ & _ & _ & _ & ->).
Qed.

(** X14: after the handler the name of the sample is a key of
    [self.authorization] exactly when one of the two fields names at least
    one user or CSC; a sample with two empty fields removes the key. *)
Theorem handle_auth_list_key data component m :
  let m' := (_handle_auth_list_for_component data component m).2 in
  (is_Some (authorization m' !! component_name data component)
   ↔ names (csc.authorizedUsers data) ≠ ∅ ∨ names (csc.nonAuthorizedCSCs data) ≠ ∅)
  ∧ (csc.authorizedUsers data = "" → csc.nonAuthorizedCSCs data = "" →
     authorization m' !! component_name data component = None).
Proof.
  cbv zeta.
  assert (Hkey :
    is_Some (authorization (_handle_auth_list_for_component data component m).2
             !! component_name data component)
    ↔ names (csc.authorizedUsers data) ≠ ∅ ∨ names (csc.nonAuthorizedCSCs data) ≠ ∅).
  { unfold _handle_auth_list_for_component.
    destruct (set_authorization_run (component_name data component)
                (elements (names (csc.authorizedUsers data)))
                (elements (names (csc.nonAuthorizedCSCs data))) m)
      as (l & m1 & Hl & _ & _ & _ & ->).
    cbn [snd]. cbv zeta. rewrite !list_to_set_elements_L.
    case_decide as Hempty; cbn [authorization write].
    - rewrite lookup_delete_eq.
      destruct Hempty as [Hu%size_empty_inv%leibniz_equiv Hp%size_empty_inv%leibniz_equiv].
      split; [by intros [? [=]]|]. intros [?|?]; done.
    - rewrite Hl. split; [intros _|eauto].
      destruct (decide (names (csc.authorizedUsers data) = ∅)) as [Hu|Hu]; [|by left].
      right. intros Hp. apply Hempty. by rewrite Hu, Hp, size_empty. }
  split; [done|]. intros Hu Hp. apply eq_None_not_Some. rewrite Hkey, Hu, Hp.
  rewrite names_empty_field. intros [?|?]; done.
Qed.

(** X15: the names that the handler stores are never empty and hold no
    comma. *)
Theorem handle_auth_list_names data component m d :
  store (_handle_auth_list_for_component data component m).2
    !! component_name data component = Some d →
  ∀ name, name ∈ authorized_users d ∪ non_authorized_cscs d →
          name ≠ "" ∧ comma_free name.
Proof.
  intros Hd.
  pose proof (handle_auth_list_read data component m) as Hread.
  rewrite read_component_authorization_run in Hread. cbn [fst] in Hread.
  rewrite Hd in Hread. cbn [default] in Hread. injection Hread as ->.
  cbn [authorized_users non_authorized_cscs].
  intros name [[Hin Hne]%names_spec|[Hin Hne]%names_spec]%elem_of_union;
    (split; [done|]); by apply (split_tokens_no_sep comma) in Hin.
Qed.

Lemma handle_auth_list_names_witness :
  "user1@node1" ≠ "" ∧ comma_free "user1@node1".
Proof.
  apply (handle_auth_list_names hexapod_1 "MTHexapod" init
           {| authorized_users := {[ "user1@node1"; "user2@node2" ]};
              non_authorized_cscs := {[ "MTRotator" ]} |}).
  - vm_compute. reflexivity.
  - apply elem_of_union_l, elem_of_union_l, elem_of_singleton. reflexivity.
Defined.

(** X16: samples of one component with different indices are filed under
    different names, and on a well-formed model the handler of one leaves
    the entry of the other as it was. *)
Theorem handle_auth_list_indices data1 data2 component i j m :
  attributes data1 !! (component +:+ "ID") = Some i →
  attributes data2 !! (component +:+ "ID") = Some j →
  i ≠ j →
  component_name data1 component ≠ component_name data2 component
  ∧ (well_formed m →
     store (_handle_auth_list_for_component data1 component m).2
       !! component_name data2 component
     = store m !! component_name data2 component).
Proof.
  intros H1 H2 Hne.
  assert (Hnames : component_name data1 component ≠ component_name data2 component).
  { unfold component_name. rewrite H1, H2.
    intros Heq. apply Hne.
    by apply (inj (String.app component)), (inj (String.app ":")), (inj pretty) in Heq. }
  split; [done|]. intros Hwf. unfold _handle_auth_list_for_component.
  destruct (set_authorization_store (component_name data1 component)
              (elements (names (csc.authorizedUsers data1)))
              (elements (names (csc.nonAuthorizedCSCs data1))) m Hwf) as (_ & _ & ->).
  case_decide.
  - by rewrite lookup_delete_ne.
  - by rewrite lookup_insert_ne.
Qed.

Lemma handle_auth_list_indices_witness :
  attributes hexapod_1 !! ("MTHexapod" +:+ "ID") = Some 1%Z
  ∧ component_name hexapod_1 "MTHexapod"
    ≠ component_name {| attributes := {[ "MTHexapodID" := 2%Z ]};
                        csc.authorizedUsers := ""; csc.nonAuthorizedCSCs := "" |}
        "MTHexapod".
Proof.
  assert (H1 : attributes hexapod_1 !! ("MTHexapod" +:+ "ID") = Some 1%Z)
    by (vm_compute; reflexivity).
  split; [exact H1|].
  apply (handle_auth_list_indices hexapod_1
           {| attributes := {[ "MTHexapodID" := 2%Z ]};
              csc.authorizedUsers := ""; csc.nonAuthorizedCSCs := "" |}
           "MTHexapod" 1%Z 2%Z init H1); [vm_compute; reflexivity|lia].
Defined.

End handler.

(** ** Invariants of every history *)

Section histories.
Import utils text authorization_model csc.

Implicit Types (m : AuthorizationModel) (op : operation).

Lemma well_formed_get_authorization component ue pe m :
  well_formed m → well_formed (get_authorization component ue pe m).2.
Proof.
  intros Hwf.
  destruct (parse_auth_request ue) as [users|e] eqn:Hu.
  - destruct (parse_auth_request pe) as [cscs|e] eqn:Hp.
    + by apply (get_authorization_store component ue pe users cscs).
    + rewrite (get_authorization_raise_run component ue pe e m) by eauto.
      by apply well_formed_write.
  - rewrite (get_authorization_raise_run component ue pe e m) by eauto.
    by apply well_formed_write.
Qed.

Lemma well_formed_process_components components request m :
  well_formed m → well_formed (process_components components request m).2.
Proof.
  revert m. induction components as [|c cs IH]; intros m Hwf; [done|].
  cbn [process_components].
  pose proof (well_formed_get_authorization c (data.authorizedUsers request)
                (data.nonAuthorizedCSCs request) m Hwf) as Hwf1.
  destruct (get_authorization c _ _ m) as [[l|e] m1]; [|done].
  specialize (IH m1 Hwf1).
  by destruct (process_components cs request m1) as [[items ending] m2].
Qed.

Lemma well_formed_after op m : well_formed m → well_formed (after op m).
Proof.
  intros Hwf. destruct op; cbn [after].
  - by apply set_authorization_store.
  - done.
  - by apply well_formed_write.
  - by apply well_formed_get_authorization.
  - unfold process_request. destruct (negb _); [done|].
    by apply well_formed_process_components.
  - by apply set_authorization_store.
Qed.

(** X17: whatever the calls made on a new model, no two components share
    an inner dictionary and every stored reference points to a dictionary:
    a write through one key is never seen through another. *)
Theorem well_formed_history (ops : list operation) :
  well_formed (after_all ops init).
Proof.
  unfold after_all. generalize well_formed_init. generalize init.
  induction ops as [|op ops IH]; intros m Hwf; [done|].
  cbn [foldl]. by apply IH, well_formed_after.
Qed.

Lemma presence_invariant_after op m :
  commits_or_reads op → well_formed m → presence_invariant m →
  presence_invariant (after op m).
Proof.
  intros Hop Hwf Hinv. destruct op; cbn [after]; try done.
  - by apply presence_invariant_set_authorization.
  - by apply presence_invariant_get_component_authorization.
  - by apply presence_invariant_set_authorization.
Qed.

(** X18: after any history of calls on a new model that does not go through
    [get_authorization] (calls of [set_authorization],
    [set_authorization_mode], [get_component_authorization] and of the
    event handler), every component of the store has a non-empty set. *)
Theorem presence_invariant_history (ops : list operation) :
  Forall commits_or_reads ops →
  presence_invariant (after_all ops init).
Proof.
  unfold after_all.
  generalize presence_invariant_init well_formed_init. generalize init.
  induction ops as [|op ops IH]; intros m Hinv Hwf Hops; [done|].
  apply Forall_cons in Hops as [Hop Hops]. cbn [foldl].
  apply IH; [by apply presence_invariant_after|by apply well_formed_after|done].
Qed.

Lemma presence_invariant_history_witness :
  Forall commits_or_reads
    [HandleAuthList hexapod_1 "MTHexapod"; SetAuthorization "Test" ["u1"] [];
     SetAuthorizationMode false; SetAuthorization "Test" [] []]
  ∧ presence_invariant
      (after_all [HandleAuthList hexapod_1 "MTHexapod";
                  SetAuthorization "Test" ["u1"] [];
                  SetAuthorizationMode false;
                  SetAuthorization "Test" [] []] init).
Proof.
  assert (Hops : Forall commits_or_reads
    [HandleAuthList hexapod_1 "MTHexapod"; SetAuthorization "Test" ["u1"] [];
     SetAuthorizationMode false; SetAuthorization "Test" [] []])
    by (repeat constructor).
  split; [exact Hops|]. exact (presence_invariant_history _ Hops).
Defined.

End histories.

(** ** From a request to the echo of the remote *)

Section echo.
Import utils text authorization_model csc.

Implicit Types (m : AuthorizationModel).

(** The string that [process_request] joins from a set of names without
    comma reads back, in the handler, as that set without the empty name. *)
Lemma names_join_set (S : gset string) :
  (∀ name, name ∈ S → comma_free name) →
  names (join_set S) = S ∖ {[ "" ]}.
Proof.
  intros Hfree. unfold names, join_set.
  destruct (elements S) as [|name l] eqn:Helem.
  - apply elements_empty_inv, leibniz_equiv in Helem. subst S.
    apply set_eq. intros x. cbn. set_solver.
  - change "," with (String comma ""). rewrite split_join; [| done |].
    + by rewrite <- Helem, list_to_set_elements_L.
    + apply Forall_forall. intros x Hx. apply Hfree, elem_of_elements.
      by rewrite Helem.
Qed.

(** X19: a request for one target whose current names hold no comma, in
    automatic mode and with two expressions that parse: [process_request]
    yields one item, and when the two strings of that item come back in an
    [authList] sample of the target, the handler leaves in the store, for
    the target, the diff that was requested, without the empty name. *)
Theorem request_echo target ue pe users cscs current m :
  _auto_accept_request m = true →
  comma_free target →
  parse_auth_request ue = Ok users →
  parse_auth_request pe = Ok cscs →
  (read_component_authorization target m).1 = Ok current →
  (∀ name, name ∈ authorized_users current ∪ non_authorized_cscs current →
           comma_free name) →
  ∃ item m1,
    process_request {| data.cscsToChange := target; data.authorizedUsers := ue;
                       data.nonAuthorizedCSCs := pe |} m
    = (([item], Ok tt), m1)
    ∧ component item = target
    ∧ (read_component_authorization target
         (_handle_auth_list_for_component
            {| attributes := ∅;
               csc.authorizedUsers := authorization_model.authorizedUsers (auth_list item);
               csc.nonAuthorizedCSCs :=
                 authorization_model.nonAuthorizedCSCs (auth_list item) |}
            target m1).2).1
      = Ok {| authorized_users :=
                authorized_users (apply_request current users cscs) ∖ {[ "" ]};
              non_authorized_cscs :=
                non_authorized_cscs (apply_request current users cscs) ∖ {[ "" ]} |}.
Proof.
  intros Hmode Htarget Hu Hp Hcur Hfree.
  rewrite read_component_authorization_run in Hcur. cbn [fst] in Hcur.
  injection Hcur as Hcur.
  pose proof (parse_ok_names_comma_free ue users.1 users.2) as Hfu.
  pose proof (parse_ok_names_comma_free pe cscs.1 cscs.2) as Hfp.
  destruct users as [au ru], cscs as [ap rp]. cbn [fst snd] in Hfu, Hfp.
  specialize (Hfu Hu). specialize (Hfp Hp).
  unfold process_request. rewrite Hmode.
  cbn [negb data.cscsToChange data.authorizedUsers data.nonAuthorizedCSCs].
  rewrite (split_no_sep comma target Htarget). cbn [process_components].
  rewrite (get_authorization_run _ _ _ _ _ _ _ _ Hu Hp). cbn [fst snd].
  rewrite deref_write_eq, deref_current, Hcur.
  eexists _, _. split; [reflexivity|]. split; [reflexivity|].
  match goal with |- context [_handle_auth_list_for_component ?d _ _] =>
    pose proof (handle_auth_list_read d target) as Hread end.
  unfold component_name in Hread. cbn [attributes] in Hread.
  rewrite lookup_empty in Hread. rewrite Hread.
  cbn [csc.authorizedUsers csc.nonAuthorizedCSCs make_set_auth_list auth_list
       authorization_model.authorizedUsers authorization_model.nonAuthorizedCSCs
       authorized_users non_authorized_cscs apply_request fst snd].
  rewrite !names_join_set; [done| |].
  - intros name [[Hin|Hin]%elem_of_union _]%elem_of_difference.
    + apply Hfree. by apply elem_of_union_r.
    + apply Hfp. by apply elem_of_union_l.
  - intros name [[Hin|Hin]%elem_of_union _]%elem_of_difference.
    + apply Hfree. by apply elem_of_union_l.
    + apply Hfu. by apply elem_of_union_l.
Qed.

Lemma request_echo_witness :
  ∃ item m1,
    process_request {| data.cscsToChange := "Test"; data.authorizedUsers := "+u2,-u1";
                       data.nonAuthorizedCSCs := "+MTRotator" |} test_u1
    = (([item], Ok tt), m1)
    ∧ component item = "Test"
    ∧ (read_component_authorization "Test"
         (_handle_auth_list_for_component
            {| attributes := ∅;
               csc.authorizedUsers := authorization_model.authorizedUsers (auth_list item);
               csc.nonAuthorizedCSCs :=
                 authorization_model.nonAuthorizedCSCs (auth_list item) |}
            "Test" m1).2).1
      = Ok {| authorized_users :=
                authorized_users
                  (apply_request
                     {| authorized_users := {[ "u1" ]}; non_authorized_cscs := ∅ |}
                     ({[ "u2" ]}, {[ "u1" ]}) ({[ "MTRotator" ]}, ∅)) ∖ {[ "" ]};
              non_authorized_cscs :=
                non_authorized_cscs
                  (apply_request
                     {| authorized_users := {[ "u1" ]}; non_authorized_cscs := ∅ |}
                     ({[ "u2" ]}, {[ "u1" ]}) ({[ "MTRotator" ]}, ∅)) ∖ {[ "" ]} |}.
Proof.
  apply (request_echo "Test" "+u2,-u1" "+MTRotator"
           ({[ "u2" ]}, {[ "u1" ]}) ({[ "MTRotator" ]}, ∅)
           {| authorized_users := {[ "u1" ]}; non_authorized_cscs := ∅ |} test_u1).
  - reflexivity.
  - reflexivity.
  - vm_compute. reflexivity.
  - vm_compute. reflexivity.
  - vm_compute. reflexivity.
  - cbn [authorization_model.authorized_users authorization_model.non_authorized_cscs].
    intros name [->%elem_of_singleton|[]%elem_of_empty]%elem_of_union. reflexivity.
Defined.

End echo.

(** ** The available components and the remotes *)

Section remotes.
Import utils text csc.

Lemma prefix_cons c p c' s :
  String.prefix (String c p) (String c' s)
  = if ascii_dec c c' then String.prefix p s else false.
Proof. reflexivity. Qed.

Lemma app_cons c p r : String c p +:+ r = String c (p +:+ r).
Proof. reflexivity. Qed.

Lemma prefix_app p r : String.prefix p (p +:+ r) = true.
Proof.
  induction p as [|c p IH]; [by destruct r|].
  rewrite app_cons, prefix_cons. by destruct (ascii_dec c c).
Qed.

Lemma skip_app p r : skip (String.length p) (p +:+ r) = r.
Proof. induction p as [|c p IH]; [done|]. by rewrite app_cons. Qed.

Lemma prefix_inv p s :
  String.prefix p s = true → s = p +:+ skip (String.length p) s.
Proof.
  revert s. induction p as [|c p IH]; intros s; [done|].
  destruct s as [|c' s]; [done|]. rewrite prefix_cons.
  destruct (ascii_dec c c') as [->|]; [|done].
  intros Hp. rewrite app_cons. cbn [String.length skip]. by rewrite <- (IH s Hp).
Qed.

Lemma line_no_newline s : count newline s = 0 → line s = s.
Proof.
  induction s as [|c s IH]; [done|]. cbn [count line].
  case_decide; [done|]. intros Hs. by rewrite IH.
Qed.

Lemma count_app ch s1 s2 : count ch (s1 +:+ s2) = count ch s1 + count ch s2.
Proof.
  induction s1 as [|c s1 IH]; [done|].
  rewrite app_cons. cbn [count]. rewrite IH. lia.
Qed.

Lemma elem_of_get_available_components idl_stems component :
  component ∈ get_available_components idl_stems
  ↔ ∃ stem, stem ∈ idl_stems ∧ String.prefix sal_revCoded stem = true
            ∧ component = line (skip (String.length sal_revCoded) stem).
Proof.
  unfold get_available_components.
  rewrite elem_of_list_to_set, list_elem_of_fmap.
  split; intros (stem & H1 & H2).
  - apply list_elem_of_filter in H2 as [? ?]. eauto.
  - exists stem. split; [tauto|]. apply list_elem_of_filter. tauto.
Qed.

(** X20: when no stem holds a newline, a component is available exactly
    when the directory has the IDL file whose stem is [sal_revCoded_]
    followed by the name of the component. *)
Theorem get_available_components_iff idl_stems component :
  Forall (λ stem, count newline stem = 0) idl_stems →
  component ∈ get_available_components idl_stems
  ↔ sal_revCoded +:+ component ∈ idl_stems.
Proof.
  intros Hstems. rewrite Forall_forall in Hstems.
  rewrite elem_of_get_available_components. split.
  - intros (stem & Hin & Hp%prefix_inv & ->).
    pose proof (Hstems stem Hin) as Hfree. rewrite Hp, count_app in Hfree.
    rewrite line_no_newline by lia. by rewrite <- Hp.
  - intros Hin. exists (sal_revCoded +:+ component).
    split; [done|]. split; [apply prefix_app|].
    rewrite skip_app, line_no_newline; [done|].
    pose proof (Hstems _ Hin) as Hfree. rewrite count_app in Hfree. lia.
Qed.

Lemma get_available_components_iff_witness :
  "LOVE" ∈ get_available_components ["sal_revCoded_LOVE"; "sal_LOVE"; "sal_revCoded_Test"]
  ↔ sal_revCoded +:+ "LOVE" ∈ ["sal_revCoded_LOVE"; "sal_LOVE"; "sal_revCoded_Test"].
Proof.
  apply get_available_components_iff. repeat constructor.
Defined.

End remotes.

Section remote_creation.
Import utils text csc.

Implicit Types (remotes : gmap string Remote) (components : gset string).

(** The loop of [_create_remotes_for_components]: a component that has a
    remote keeps it, and one that has none gets a new one if it is listed. *)
Lemma create_loop_lookup (l : list string) remotes c :
  foldl (λ remotes component,
           if decide (component ∉ dom remotes)
           then <[component := new_remote component]> remotes
           else remotes) remotes l !! c
  = match remotes !! c with
    | Some remote => Some remote
    | None => if decide (c ∈ l) then Some (new_remote c) else None
    end.
Proof.
  revert remotes. induction l as [|a l IH]; intros remotes; cbn [foldl].
  - destruct (remotes !! c); [done|]. rewrite decide_False; [done|]. by intros ?%elem_of_nil.
  - rewrite IH. clear IH. destruct (decide (a ∉ dom remotes)) as [Ha|Ha].
    + rewrite lookup_insert. destruct (decide (a = c)) as [->|Hne].
      * apply not_elem_of_dom in Ha. rewrite Ha.
        rewrite decide_True; [done|]. apply list_elem_of_here.
      * destruct (remotes !! c); [done|].
        destruct (decide (c ∈ l)) as [Hin|Hin].
        -- rewrite decide_True; [done|]. by apply list_elem_of_further.
        -- rewrite decide_False; [done|]. intros [?|?]%elem_of_cons; by subst.
    + apply dec_stable in Ha. apply elem_of_dom in Ha as [remote Ha].
      destruct (remotes !! c) as [remote'|] eqn:Hc; [done|].
      assert (a ≠ c) by (intros ->; congruence).
      destruct (decide (c ∈ l)) as [Hin|Hin].
      * rewrite decide_True; [done|]. by apply list_elem_of_further.
      * rewrite decide_False; [done|]. intros [?|?]%elem_of_cons; by subst.
Qed.

Lemma not_available_iff components (available : gset string) :
  components ≠ components ∩ available ↔ components ∖ available ≠ ∅.
Proof.
  split; intros Hne Heq; apply Hne.
  - apply set_eq. intros c. rewrite elem_of_intersection.
    split; [|tauto]. intros Hc. split; [done|].
    destruct (decide (c ∈ available)) as [|Hn]; [done|].
    assert (Hin : c ∈ components ∖ available) by by apply elem_of_difference.
    rewrite Heq in Hin. by apply not_elem_of_empty in Hin.
  - apply set_eq. intros c. rewrite elem_of_difference. split.
    + intros [Hc Hn]. rewrite Heq in Hc. by apply elem_of_intersection in Hc as [_ ?].
    + by intros ?%not_elem_of_empty.
Qed.

(** X21: [_create_remotes_for_components] raises exactly when one of the
    requested components has no IDL file or is [LOVE], and its message
    lists exactly those; otherwise every requested component has a remote
    afterwards, a new one unless it had one already, and no other key is
    added. *)
Theorem create_remotes_outcome idl_stems components remotes :
  let available := get_available_components idl_stems ∖ {[ "LOVE" ]} in
  match _create_remotes_for_components idl_stems components remotes with
  | NotAvailable missing =>
      missing = components ∖ available ∧ missing ≠ ∅
  | Remotes remotes' =>
      components ⊆ available
      ∧ dom remotes' = dom remotes ∪ components
      ∧ (∀ c remote, remotes !! c = Some remote → remotes' !! c = Some remote)
      ∧ (∀ c, c ∈ components → remotes !! c = None →
              remotes' !! c = Some (new_remote c))
  end.
Proof.
  intros available. unfold _create_remotes_for_components. fold available.
  case_decide as Hne.
  - split; [done|]. by apply not_available_iff.
  - assert (Hsub : components ⊆ available).
    { intros c Hc. rewrite Hne in Hc. by apply elem_of_intersection in Hc as [_ ?]. }
    split; [done|]. split; [|split].
    + apply set_eq. intros c.
      rewrite elem_of_dom, create_loop_lookup, elem_of_union, elem_of_dom.
      destruct (remotes !! c) as [remote|].
      * split; eauto.
      * case_decide as Hin; rewrite elem_of_elements in Hin.
        -- split; eauto.
        -- split; [by intros [? [=]]|]. intros [[? [=]]|?]. done.
    + intros c remote Hc. by rewrite create_loop_lookup, Hc.
    + intros c Hin Hc. rewrite create_loop_lookup, Hc.
      rewrite decide_True; [done|]. by apply elem_of_elements.
Qed.

(** X22: a request that lists [LOVE] itself always raises, and the message
    lists [LOVE]. *)
Theorem create_remotes_love idl_stems components remotes :
  "LOVE" ∈ components →
  ∃ missing,
    _create_remotes_for_components idl_stems components remotes = NotAvailable missing
    ∧ "LOVE" ∈ missing.
Proof.
  intros Hin. unfold _create_remotes_for_components.
  rewrite decide_True.
  - eexists. split; [done|]. set_solver.
  - apply not_available_iff. set_solver.
Qed.

Lemma create_remotes_love_witness :
  ∃ missing,
    _create_remotes_for_components ["sal_revCoded_LOVE"; "sal_revCoded_Test"]
      {[ "Test"; "LOVE" ]} ∅ = NotAvailable missing
    ∧ "LOVE" ∈ missing.
Proof. apply create_remotes_love. set_solver. Defined.

(** X23: with no components given, [__init__] never raises: it creates
    one remote for each component with an IDL file, but for [LOVE]. *)
Theorem init_remotes_default idl_stems :
  ∃ remotes,
    init_remotes idl_stems None = Remotes remotes
    ∧ dom remotes = get_available_components idl_stems ∖ {[ "LOVE" ]}
    ∧ ("LOVE" ∉ dom remotes)
    ∧ (∀ c, c ∈ dom remotes → remotes !! c = Some (new_remote c)).
Proof.
  unfold init_remotes. cbn [default].
  pose proof (create_remotes_outcome idl_stems
                (get_available_components idl_stems ∖ {[ "LOVE" ]}) ∅) as Hout.
  cbv zeta in Hout.
  destruct (_create_remotes_for_components idl_stems _ ∅) as [remotes|missing].
  - destruct Hout as (_ & Hdom & _ & Hnew). exists remotes.
    rewrite dom_empty_L, (left_id_L ∅ (∪)) in Hdom.
    split; [done|]. split; [done|]. split; [rewrite Hdom; set_solver|].
    intros c Hc. apply Hnew; [by rewrite <- Hdom|done].
  - destruct Hout as [-> Hne]. exfalso. apply Hne. set_solver.
Qed.

(** X24: creating the remotes of the same components a second time changes
    nothing. *)
Theorem create_remotes_twice idl_stems components remotes remotes' :
  _create_remotes_for_components idl_stems components remotes = Remotes remotes' →
  _create_remotes_for_components idl_stems components remotes' = Remotes remotes'.
Proof.
  intros Hfirst.
  pose proof (create_remotes_outcome idl_stems components remotes) as H1.
  pose proof (create_remotes_outcome idl_stems components remotes') as H2.
  rewrite Hfirst in H1. cbv zeta in H1, H2.
  destruct H1 as (Hsub & Hdom & _ & _).
  destruct (_create_remotes_for_components idl_stems components remotes')
    as [remotes''|missing].
  - destruct H2 as (_ & Hdom2 & Hkeep & _). f_equal. apply map_eq. intros c.
    destruct (remotes' !! c) as [remote|] eqn:Hc; [by apply Hkeep|].
    apply not_elem_of_dom. rewrite Hdom2. apply not_elem_of_dom in Hc. set_solver.
  - destruct H2 as [-> Hne]. exfalso. apply Hne. set_solver.
Qed.

Lemma create_remotes_twice_witness :
  _create_remotes_for_components ["sal_revCoded_LOVE"; "sal_revCoded_Test"]
    {[ "Test" ]} {[ "Test" := new_remote "Test" ]}
  = Remotes {[ "Test" := new_remote "Test" ]}.
Proof.
  apply (create_remotes_twice _ _ ∅). vm_compute. reflexivity.
Defined.

End remote_creation.

(** ** Reading, and the items of a request *)

Section items.
Import utils text authorization_model csc.

Implicit Types (m : AuthorizationModel).

(** X25: the string that [process_request] joins from a set of names that
    hold no comma reads back, through the split of the handler, as the same
    set without the empty name. *)
Theorem join_then_names (S : gset string) :
  (∀ name, name ∈ S → comma_free name) →
  names (join_set S) = S ∖ {[ "" ]}.
Proof. apply names_join_set. Qed.

Lemma join_then_names_witness :
  names (join_set {[ "user1@node1"; "user2@node2"; "" ]})
  = {[ "user1@node1"; "user2@node2"; "" ]} ∖ {[ "" ]}.
Proof.
  apply join_then_names.
  intros name [[->%elem_of_singleton| ->%elem_of_singleton]%elem_of_union
              | ->%elem_of_singleton]%elem_of_union; reflexivity.
Defined.

(** X26: [get_component_authorization] changes neither the store nor the
    mode, and the dictionary it returns holds the entry of the component,
    or two empty sets when the component is not a key of the store. *)
Theorem get_component_authorization_reads component m :
  (read_component_authorization component m).1
  = Ok (default empty_component_authorization (store m !! component))
  ∧ store (get_component_authorization component m).2 = store m
  ∧ _auto_accept_request (get_component_authorization component m).2
    = _auto_accept_request m.
Proof.
  split; [by rewrite read_component_authorization_run|].
  apply get_component_authorization_store.
Qed.



End items.
